(** * Trust-aware forwarding node: a shallow embedding of Final_proj/Mal_node.c

    The node keeps a table of one-hop neighbours with a trust score each,
    gossips the scores, penalises neighbours that forward too quickly and
    refuses traffic from neighbours whose score is below [MAT].

    The embedding follows the C text handler by handler.  The intrusive
    linked list [neighbor_table] is a Rocq list in iteration order (Contiki's
    [list_add] appends at the tail), the pool [neighbor_mem] is the number of
    blocks handed out, [printf] appends to a console, and every handler takes
    what it reads from the operating system (the node's own address, the
    clock, the random number, the packet) as arguments. *)

From Stdlib Require Import ZArith Lia.
From Stdlib Require Floats Uint63.
From stdpp Require Import base tactics option list.

Local Open Scope Z_scope.

(** ** C arithmetic of the target

    The model fixes an ILP32 target: [int] and [unsigned long] are 32 bits
    wide and [double] is IEEE 754 binary64.  Signed results are wrapped into
    the two's-complement range, unsigned ones are reduced modulo [2^32]. *)
Module Machine.
Import PrimFloat.   (* for the notation of double constants *)

Definition INT_BITS : Z := 32.
Definition INT_MIN : Z := - 2 ^ (INT_BITS - 1).
Definition INT_MAX : Z := 2 ^ (INT_BITS - 1) - 1.
Definition ULONG_BITS : Z := 32.
Definition ULONG_MAX : Z := 2 ^ ULONG_BITS - 1.
(* lib/random.h: random_rand() returns an unsigned short *)
Definition RANDOM_RAND_MAX : Z := 65535.

Definition wrap_int (z : Z) : Z :=
  (z - INT_MIN) mod 2 ^ INT_BITS + INT_MIN.

Definition wrap_ulong (z : Z) : Z := z mod 2 ^ ULONG_BITS.

(* a + b on int *)
Definition int_add (a b : Z) : Z := wrap_int (a + b).
(* a / b on int: the quotient is truncated toward zero *)
Definition int_div (a b : Z) : Z := wrap_int (Z.quot a b).
(* a % b on int: the remainder has the sign of the dividend *)
Definition int_rem (a b : Z) : Z := Z.rem a b.
(* a - b on unsigned long *)
Definition ulong_sub (a b : Z) : Z := wrap_ulong (a - b).

(* (double) z, for an int z *)
Definition double_of_int (z : Z) : PrimFloat.float :=
  if z <? 0
  then PrimFloat.opp (PrimFloat.of_uint63 (Uint63.of_Z (- z)))
  else PrimFloat.of_uint63 (Uint63.of_Z z).

(* (int) f: the fractional part is discarded *)
Definition int_of_double (f : PrimFloat.float) : Z :=
  match FloatOps.Prim2SF f with
  | SpecFloat.S754_finite s m e =>
      let v := if 0 <=? e then Z.shiftl (Z.pos m) e
               else Z.shiftr (Z.pos m) (- e) in
      wrap_int (if s then - v else v)
  | _ => 0
  end.

(* the double constant 0.99, i.e. 8917127262193582 * 2^-53 *)
Definition double_0_99 : PrimFloat.float := (0x1.fae147ae147aep-1)%float.

(* x *= 0.99 on an int x: convert, multiply in double, convert back *)
Definition int_mul_0_99 (x : Z) : Z :=
  int_of_double (PrimFloat.mul (double_of_int x) double_0_99).

End Machine.
Import Machine.

(** ** Macros *)

Definition NEIGHBOR_TIMEOUT : Z := 10.   (* 10 * CLOCK_SECOND, in seconds *)
Definition MAX_NEIGHBORS : nat := 16.
Definition MAT : Z := 50.
Definition MINIMUM_DELAY : Z := 5.

(** ** Data *)

(* linkaddr_t: the two octets u8[0], u8[1] *)
Record linkaddr := { u8_0 : Z; u8_1 : Z }.

#[global] Instance linkaddr_eq_dec : EqDecision linkaddr.
Proof. solve_decision. Defined.

Definition linkaddr_cmp (a b : linkaddr) : bool :=
  (u8_0 a =? u8_0 b) && (u8_1 a =? u8_1 b).

(* struct neighbor; [ctimer] holds the deadline written by the last
   ctimer_set, the [next] pointer is the position in the list *)
Record neighbor := {
  addr : linkaddr;
  trust : Z;
  ctimer : Z;
  last_received : Z
}.

(* struct neighbor_trust, the record sent over broadcast *)
Record neighbor_trust := { nt_addr : linkaddr; nt_trust : Z }.

#[global] Instance neighbor_eq_dec : EqDecision neighbor.
Proof. solve_decision. Defined.

#[global] Instance neighbor_trust_eq_dec : EqDecision neighbor_trust.
Proof. solve_decision. Defined.

(* one line per printf of the program, with the addresses and trust values it
   prints *)
Inductive log_line :=
  | LogUntrusted (sender : linkaddr)
  | LogMultihop (sender : linkaddr)
  | LogDropped (prevhop : linkaddr)
  | LogForwarding (self next : linkaddr) (num : Z)
  | LogNoNeighbor (self : linkaddr)
  | LogBroadcast (from : linkaddr)
  | LogReceivedTrusts
  | LogPair (a : linkaddr) (t : Z)
  | LogOwnTrusts
  | LogOwn (a : linkaddr) (t : Z)
  | LogNewline
  | LogTrustFell (a : linkaddr).

(* the global variables of the program *)
Record node := {
  neighbor_table : list neighbor;
  neighbor_mem : nat;
  console : list log_line
}.

Definition sink_addr : linkaddr := {| u8_0 := 1; u8_1 := 0 |}.

(* the state once multihop_process has run memb_init and list_init *)
Definition init_node : node :=
  {| neighbor_table := []; neighbor_mem := 0%nat; console := [] |}.

Definition set_trust (n : neighbor) (t : Z) : neighbor :=
  {| addr := addr n; trust := t; ctimer := ctimer n;
     last_received := last_received n |}.

Definition set_last_received (n : neighbor) (t : Z) : neighbor :=
  {| addr := addr n; trust := trust n; ctimer := ctimer n;
     last_received := t |}.

(* ctimer_set(&n->ctimer, interval, remove_neighbor, n) at time [now] *)
Definition ctimer_set (now interval : Z) (n : neighbor) : neighbor :=
  {| addr := addr n; trust := trust n; ctimer := now + interval;
     last_received := last_received n |}.

Definition set_table (tbl : list neighbor) (st : node) : node :=
  {| neighbor_table := tbl; neighbor_mem := neighbor_mem st;
     console := console st |}.

Definition printf (l : log_line) (st : node) : node :=
  {| neighbor_table := neighbor_table st; neighbor_mem := neighbor_mem st;
     console := console st ++ [l] |}.

(* list_length(neighbor_table), an int *)
Definition list_length (tbl : list neighbor) : Z := Z.of_nat (length tbl).

(* memb_alloc(&neighbor_mem): a block, unless all MAX_NEIGHBORS are taken *)
Definition memb_alloc (st : node) : option node :=
  if decide (neighbor_mem st < MAX_NEIGHBORS)%nat
  then Some {| neighbor_table := neighbor_table st;
               neighbor_mem := S (neighbor_mem st);
               console := console st |}
  else None.

(* list_add(neighbor_table, e): e becomes the last element *)
Definition list_add (e : neighbor) (st : node) : node :=
  set_table (neighbor_table st ++ [e]) st.

(** ** Helper functions of the program *)

(* addr_is_blocked *)
Fixpoint addr_is_blocked (a : linkaddr) (tbl : list neighbor) : bool :=
  match tbl with
  | [] => false
  | n :: rest =>
      if linkaddr_cmp a (addr n) && (trust n <? MAT) then true
      else addr_is_blocked a rest
  end.

(* the body of the inner loop of update_table for the record nt[i] = p *)
Definition update_entry (p : neighbor_trust) (e : neighbor) : neighbor :=
  let e1 :=
    if linkaddr_cmp (nt_addr p) (addr e) then
      if negb (nt_trust p =? trust e)
      then set_trust e (int_div (int_add (trust e) (nt_trust p)) 2)
      else e
    else e in
  if linkaddr_cmp (addr e1) sink_addr then set_trust e1 100 else e1.

(* the inner loop of update_table, over the neighbour list *)
Fixpoint update_entries (p : neighbor_trust) (tbl : list neighbor)
  : list neighbor :=
  match tbl with
  | [] => []
  | e :: rest => update_entry p e :: update_entries p rest
  end.

Definition zero_trust : neighbor_trust :=
  {| nt_addr := {| u8_0 := 0; u8_1 := 0 |}; nt_trust := 0 |}.

(* nt[i] for an array held as a list *)
Definition nt_at (nt : list neighbor_trust) (i : nat) : neighbor_trust :=
  default zero_trust (nt !! i).

(* the outer loop of update_table: [todo] iterations are left, the next one
   reads nt[i]; a record with trust 0 ends the loop *)
Fixpoint update_rows (todo i : nat) (nt : list neighbor_trust) (st : node)
  : node :=
  match todo with
  | O => st
  | S todo' =>
      let p := nt_at nt i in
      if nt_trust p =? 0 then st
      else
        let st1 := printf (LogPair (nt_addr p) (nt_trust p)) st in
        update_rows todo' (S i) nt
          (set_table (update_entries p (neighbor_table st1)) st1)
  end.

(* the closing loop of update_table, which prints the table *)
Fixpoint print_own (tbl : list neighbor) (st : node) : node :=
  match tbl with
  | [] => st
  | e :: rest => print_own rest (printf (LogOwn (addr e) (trust e)) st)
  end.

(* update_table *)
Definition update_table (nt : list neighbor_trust) (st : node) : node :=
  let st1 := update_rows MAX_NEIGHBORS 0 nt (printf LogReceivedTrusts st) in
  let st2 := print_own (neighbor_table st1) (printf LogOwnTrusts st1) in
  printf LogNewline st2.

(* remove_neighbor, the ctimer callback; the argument is the list position of
   the entry the timer belongs to *)
Definition remove_neighbor (now : Z) (k : nat) (st : node) : node :=
  match neighbor_table st !! k with
  | None => st
  | Some n =>
      if linkaddr_cmp sink_addr (addr n) then st
      else if MAT <=? trust n
      then set_table
             (<[k := ctimer_set now NEIGHBOR_TIMEOUT n]> (neighbor_table st)) st
      else printf (LogTrustFell (addr n)) st
  end.

(** ** Event handlers *)

(* the loop of recv *)
Fixpoint recv_loop (now : Z) (sender : linkaddr) (tbl : list neighbor)
  : list neighbor :=
  match tbl with
  | [] => []
  | e :: rest =>
      (if linkaddr_cmp sender (addr e)
       then ctimer_set now NEIGHBOR_TIMEOUT e else e)
      :: recv_loop now sender rest
  end.

(* recv *)
Definition recv (now : Z) (sender prevhop : linkaddr) (hops : Z) (st : node)
  : node :=
  if addr_is_blocked sender (neighbor_table st)
  then printf (LogUntrusted sender) st
  else
    let st1 := printf (LogMultihop sender) st in
    set_table (recv_loop now sender (neighbor_table st1)) st1.

(* the body of the first loop of forward for an entry with the address of
   prevhop *)
Definition penalise (now : Z) (n : neighbor) : neighbor :=
  let n1 := ctimer_set now NEIGHBOR_TIMEOUT n in
  let n2 :=
    if (ulong_sub now (last_received n1) <? MINIMUM_DELAY) && (49 <? trust n1)
    then set_trust n1 (int_mul_0_99 (trust n1))
    else n1 in
  set_last_received n2 now.

(* the first loop of forward *)
Fixpoint forward_loop (now : Z) (prevhop : linkaddr) (tbl : list neighbor)
  : list neighbor :=
  match tbl with
  | [] => []
  | n :: rest =>
      (if linkaddr_cmp prevhop (addr n) then penalise now n else n)
      :: forward_loop now prevhop rest
  end.

(* the second loop of forward: walk from the head while i != num *)
Fixpoint walk (i num : Z) (tbl : list neighbor) : option neighbor :=
  match tbl with
  | [] => None
  | n :: rest => if negb (i =? num) then walk (i + 1) num rest else Some n
  end.

(* forward; [self] is linkaddr_node_addr, [rand] the value of random_rand();
   the result is the next hop (None for NULL) and the new state *)
Definition forward (self : linkaddr) (now rand : Z)
    (originator dest prevhop : linkaddr) (hops : Z) (st : node)
  : option linkaddr * node :=
  if negb (linkaddr_cmp prevhop self)
     && addr_is_blocked prevhop (neighbor_table st)
  then (None, printf (LogDropped prevhop) st)
  else
    let st1 := set_table (forward_loop now prevhop (neighbor_table st)) st in
    let none := (None, printf (LogNoNeighbor self) st1) in
    if 0 <? list_length (neighbor_table st1) then
      let num := int_rem rand (list_length (neighbor_table st1)) in
      match walk 0 num (neighbor_table st1) with
      | Some n => (Some (addr n), printf (LogForwarding self (addr n) num) st1)
      | None => none
      end
    else none.

(* packetbuf_copyto(nt) into the zero-initialised array nt[MAX_NEIGHBORS] *)
Definition packetbuf_copyto (payload : list neighbor_trust)
  : list neighbor_trust :=
  take MAX_NEIGHBORS (payload ++ replicate MAX_NEIGHBORS zero_trust).

(* how the first loop of broadcast_recv ends *)
Inductive scan_result := Refused | Accepted | Unknown.

(* the first loop of broadcast_recv: it returns at the first entry whose
   address is [from] *)
Fixpoint broadcast_scan (from : linkaddr) (tbl : list neighbor) : scan_result :=
  match tbl with
  | [] => Unknown
  | e :: rest =>
      if linkaddr_cmp from (addr e)
      then (if trust e <? 50 then Refused else Accepted)
      else broadcast_scan from rest
  end.

(* the entry broadcast_recv fills in for a sender heard for the first time *)
Definition new_neighbor (now : Z) (from : linkaddr) : neighbor :=
  {| addr := from; trust := 100; ctimer := now + NEIGHBOR_TIMEOUT;
     last_received := now |}.

(* broadcast_recv *)
Definition broadcast_recv (now : Z) (from : linkaddr)
    (payload : list neighbor_trust) (st : node) : node :=
  let st0 := printf (LogBroadcast from) st in
  match broadcast_scan from (neighbor_table st0) with
  | Refused => st0
  | Accepted => update_table (packetbuf_copyto payload) st0
  | Unknown =>
      let st1 :=
        match memb_alloc st0 with
        | Some st' =>
            list_add (new_neighbor now from) st'
        | None => st0
        end in
      update_table (packetbuf_copyto payload) st1
  end.

(* the loop of broadcast_process that fills nt[] from the table *)
Fixpoint fill_nt (tbl : list neighbor) (i : nat) (nt : list neighbor_trust)
  : list neighbor_trust :=
  match tbl with
  | [] => nt
  | n :: rest =>
      fill_nt rest (S i)
        (<[i := {| nt_addr := addr n; nt_trust := trust n |}]> nt)
  end.

(* the array handed to packetbuf_copyfrom by broadcast_process; nt[] is
   zero-initialised each time the process is resumed *)
Definition broadcast_snapshot (tbl : list neighbor) : list neighbor_trust :=
  fill_nt tbl 0 (replicate MAX_NEIGHBORS zero_trust).

(** ** Runs of a node *)

Inductive event :=
  | Broadcast (now : Z) (from : linkaddr) (payload : list neighbor_trust)
  | Unicast (now : Z) (sender prevhop : linkaddr) (hops : Z)
  | Forward (now rand : Z) (originator dest prevhop : linkaddr) (hops : Z)
  | Expiry (now : Z) (k : nat).

Definition handle (self : linkaddr) (st : node) (ev : event) : node :=
  match ev with
  | Broadcast now from payload => broadcast_recv now from payload st
  | Unicast now sender prevhop hops => recv now sender prevhop hops st
  | Forward now rand originator dest prevhop hops =>
      (forward self now rand originator dest prevhop hops st).2
  | Expiry now k => remove_neighbor now k st
  end.

Definition run (self : linkaddr) (evs : list event) (st : node) : node :=
  foldl (handle self) st evs.

(** ** Vocabulary of the statements *)

Definition addrs (tbl : list neighbor) : list linkaddr := addr <$> tbl.

(* the record broadcast_process writes for an entry *)
Definition trust_record (n : neighbor) : neighbor_trust :=
  {| nt_addr := addr n; nt_trust := trust n |}.

(* the records before the first one with trust 0 *)
Fixpoint meaningful (nt : list neighbor_trust) : list neighbor_trust :=
  match nt with
  | [] => []
  | p :: rest => if nt_trust p =? 0 then [] else p :: meaningful rest
  end.

(* the records of a trust vector that a merge works through *)
Definition processed (nt : list neighbor_trust) : list neighbor_trust :=
  meaningful (take MAX_NEIGHBORS nt).

(* the trust of an entry with address [a] and trust [cur] once the record [p]
   has been processed *)
Definition merged_trust (a : linkaddr) (cur : Z) (p : neighbor_trust) : Z :=
  if decide (a = sink_addr) then 100
  else if decide (nt_addr p = a ∧ nt_trust p ≠ cur)
       then int_div (int_add cur (nt_trust p)) 2
       else cur.

(* the same, read off the merge rule without the sink: the floor of the mean
   whenever the addresses agree and the trusts differ *)
Definition averaged_trust (a : linkaddr) (cur : Z) (p : neighbor_trust) : Z :=
  if decide (nt_addr p = a ∧ nt_trust p ≠ cur)
  then (cur + nt_trust p) / 2
  else cur.

Definition trust_in_range (tbl : list neighbor) : Prop :=
  Forall (λ n, 0 ≤ trust n ≤ 100) tbl.

Definition sink_pinned (tbl : list neighbor) : Prop :=
  Forall (λ n, addr n = sink_addr → trust n = 100) tbl.

(* every trust field a broadcast carries lies between 0 and 100 *)
Definition wire_in_range (ev : event) : Prop :=
  match ev with
  | Broadcast _ _ payload => Forall (λ p, 0 ≤ nt_trust p ≤ 100) payload
  | _ => True
  end.

(* the pool and the list agree, and the pool has MAX_NEIGHBORS blocks *)
Definition pool_inv (st : node) : Prop :=
  length (neighbor_table st) = neighbor_mem st
  ∧ (neighbor_mem st ≤ MAX_NEIGHBORS)%nat.

(* the forward handler drops the packet at its first test *)
Definition dropped (self prevhop : linkaddr) (tbl : list neighbor) : Prop :=
  prevhop ≠ self ∧ addr_is_blocked prevhop tbl = true.

(* the address x.0 *)
Definition node_addr (x : Z) : linkaddr := {| u8_0 := x; u8_1 := 0 |}.

(* an entry whose timer was armed when it was last heard *)
Definition entry (a : linkaddr) (t last : Z) : neighbor :=
  {| addr := a; trust := t; ctimer := last + NEIGHBOR_TIMEOUT;
     last_received := last |}.

(* a node holding the table [tbl], each entry in a block of the pool *)
Definition with_table (tbl : list neighbor) : node :=
  {| neighbor_table := tbl; neighbor_mem := length tbl; console := [] |}.

(* the table {2.0: 100, 1.0: 100} and a vector with the record 1.0: 50 *)
Definition sink_known : node :=
  with_table [entry (node_addr 2) 100 0; entry sink_addr 100 0].
Definition sink_at_50 : list neighbor_trust :=
  [{| nt_addr := sink_addr; nt_trust := 50 |}].

(* the table {5.0: 49}, last heard at time 0 *)
Definition blocked_5 : node := with_table [entry (node_addr 5) 49 0].

(* gossip from the sink, then [n] forward events from the sink, one a second *)
Definition sink_forwards (n : nat) : list event :=
  Broadcast 0 sink_addr []
  :: ((λ i : nat,
         Forward (Z.of_nat i) 0 {| u8_0 := 9; u8_1 := 0 |} sink_addr
           sink_addr 1) <$> seq 1 n).

(** ** Vocabulary of the further properties *)

(* the clock value an event is handled at *)
Definition event_time (ev : event) : Z :=
  match ev with
  | Broadcast now _ _ => now
  | Unicast now _ _ _ => now
  | Forward now _ _ _ _ _ => now
  | Expiry now _ => now
  end.

(* the events come in the order of a clock that starts at [t0] and never
   runs backwards *)
Fixpoint chronological (t0 : Z) (evs : list event) : Prop :=
  match evs with
  | [] => True
  | ev :: rest => t0 ≤ event_time ev ∧ chronological (event_time ev) rest
  end.

(* the clock value after the events *)
Definition end_time (t0 : Z) (evs : list event) : Z :=
  foldl (λ _ ev, event_time ev) t0 evs.

Definition is_broadcast (ev : event) : bool :=
  match ev with Broadcast _ _ _ => true | _ => false end.

(* a forward event whose previous hop is the sink *)
Definition forward_from_sink (ev : event) : Prop :=
  match ev with
  | Forward _ _ _ _ prevhop _ => prevhop = sink_addr
  | _ => False
  end.

(* forward events with previous hop [p], one per (clock, random number) *)
Definition forwards_from (p : linkaddr) (ticks : list (Z * Z)) : list event :=
  (λ tick : Z * Z, Forward tick.1 tick.2 p sink_addr p 0) <$> ticks.

(* each tick comes less than MINIMUM_DELAY after the one before, the first
   one after [last] *)
Fixpoint rapid (last : Z) (ticks : list (Z * Z)) : Prop :=
  match ticks with
  | [] => True
  | tick :: rest =>
      last ≤ tick.1 ∧ tick.1 - last < MINIMUM_DELAY ∧ tick.1 ≤ ULONG_MAX
      ∧ rapid tick.1 rest
  end.

(* one round of the outer loop of update_table, for the record [p] *)
Definition merge_row (st : node) (p : neighbor_trust) : node :=
  set_table
    (update_entries p (neighbor_table (printf (LogPair (nt_addr p) (nt_trust p)) st)))
    (printf (LogPair (nt_addr p) (nt_trust p)) st).

(* what a receiver decodes from the vector a node with table [tbl] sends *)
Definition gossip_of (tbl : list neighbor) : list neighbor_trust :=
  processed (packetbuf_copyto (broadcast_snapshot tbl)).

(* the first entry of [tbl] with address [a], if there is one *)
Fixpoint entry_for (a : linkaddr) (tbl : list neighbor) : option neighbor :=
  match tbl with
  | [] => None
  | e :: rest => if decide (addr e = a) then Some e else entry_for a rest
  end.

(* at clock value [t]: no entry was heard later than [t], no timer is set to
   expire later than [t] + NEIGHBOR_TIMEOUT, and every timer expires at least
   NEIGHBOR_TIMEOUT after the entry was last heard *)
Definition stamps_inv (t : Z) (tbl : list neighbor) : Prop :=
  Forall
    (λ e, last_received e ≤ t ∧ ctimer e ≤ t + NEIGHBOR_TIMEOUT
          ∧ last_received e + NEIGHBOR_TIMEOUT ≤ ctimer e)
    tbl.

(* every trust lies between 1 and 100 *)
Definition trust_positive (tbl : list neighbor) : Prop :=
  Forall (λ n, 1 ≤ trust n ≤ 100) tbl.

(* the trust an entry [e] has after a node merged the snapshot of a table
   [tbl] with unique addresses and no trust 0 *)
Definition gossiped_trust (tbl : list neighbor) (e : neighbor) : Z :=
  if decide (addr e = sink_addr)
  then (if decide (tbl = []) then trust e else 100)
  else match entry_for (addr e) tbl with
       | Some a =>
           if decide (trust a = trust e) then trust e
           else int_div (int_add (trust e) (trust a)) 2
       | None => trust e
       end.

(* broadcasts with a zero-filled vector from the 16 nodes 2.0 to 17.0 *)
Definition sixteen_senders : list event :=
  (λ i : nat, Broadcast 0 (node_addr (Z.of_nat i)) []) <$> seq 2 16.

(** * Properties *)

(** ** Arithmetic *)

Lemma wrap_int_id z : INT_MIN ≤ z ≤ INT_MAX → wrap_int z = z.
Proof.
  unfold wrap_int, INT_MIN, INT_MAX, INT_BITS.
  change (2 ^ (32 - 1)) with 2147483648.
  change (2 ^ 32) with 4294967296.
  intros H. rewrite Z.mod_small; lia.
Qed.

Lemma wrap_ulong_id z : 0 ≤ z ≤ ULONG_MAX → wrap_ulong z = z.
Proof.
  unfold wrap_ulong, ULONG_MAX, ULONG_BITS.
  change (2 ^ 32) with 4294967296.
  intros H. rewrite Z.mod_small; lia.
Qed.

Lemma int_max_value : INT_MIN = -2147483648 ∧ INT_MAX = 2147483647.
Proof. split; reflexivity. Qed.

Lemma int_mean_trunc a b :
  INT_MIN ≤ a + b ≤ INT_MAX → int_div (int_add a b) 2 = Z.quot (a + b) 2.
Proof.
  intros H. unfold int_div, int_add. rewrite (wrap_int_id (a + b)) by done.
  apply wrap_int_id.
  destruct int_max_value as [Hmin Hmax]. rewrite Hmin, Hmax in *.
  pose proof (Z.quot_rem' (a + b) 2) as Hq.
  pose proof (Z.rem_bound_abs (a + b) 2 ltac:(lia)). lia.
Qed.

Lemma int_mean_floor a b :
  0 ≤ a + b ≤ INT_MAX → int_div (int_add a b) 2 = (a + b) / 2.
Proof.
  intros H. rewrite int_mean_trunc.
  - apply Z.quot_div_nonneg; lia.
  - destruct int_max_value as [-> _]. lia.
Qed.

(* the double arithmetic of [x *= 0.99], checked on every trust value *)
Lemma int_mul_0_99_table :
  forallb (λ x, int_mul_0_99 x =? x * 99 / 100) (Z.of_nat <$> seq 0 101) = true.
Proof. vm_compute. reflexivity. Qed.

Lemma int_mul_0_99_exact x : 0 ≤ x ≤ 100 → int_mul_0_99 x = x * 99 / 100.
Proof.
  intros H. apply Z.eqb_eq.
  apply (proj1 (forallb_forall _ _) int_mul_0_99_table).
  apply in_map_iff. exists (Z.to_nat x). split; [lia|].
  apply in_seq. lia.
Qed.

Lemma int_mul_0_99_bounds x : 0 ≤ x ≤ 100 → 0 ≤ int_mul_0_99 x ≤ x.
Proof.
  intros H. rewrite int_mul_0_99_exact by done.
  split; [apply Z.div_pos; lia|].
  apply Z.div_le_upper_bound; lia.
Qed.

(* the constant is the double next to 99/100 *)
Lemma double_0_99_nearest :
  FloatOps.Prim2SF double_0_99
  = SpecFloat.S754_finite false 8917127262193582 (-53)
  ∧ Z.abs (100 * 8917127262193582 - 99 * 2 ^ 53) ≤ 50.
Proof. split; [reflexivity | vm_compute; discriminate]. Qed.

(** ** Addresses *)

Lemma linkaddr_cmp_decide a b : linkaddr_cmp a b = bool_decide (a = b).
Proof.
  destruct a as [a0 a1], b as [b0 b1]. unfold linkaddr_cmp. simpl.
  destruct (Z.eqb_spec a0 b0), (Z.eqb_spec a1 b1); simpl; symmetry;
    (apply bool_decide_eq_true; congruence)
    || (apply bool_decide_eq_false; congruence).
Qed.

Lemma linkaddr_cmp_true a b : linkaddr_cmp a b = true ↔ a = b.
Proof. rewrite linkaddr_cmp_decide. apply bool_decide_eq_true. Qed.

Lemma linkaddr_cmp_false a b : linkaddr_cmp a b = false ↔ a ≠ b.
Proof. rewrite linkaddr_cmp_decide. apply bool_decide_eq_false. Qed.

Lemma linkaddr_cmp_refl a : linkaddr_cmp a a = true.
Proof. by apply linkaddr_cmp_true. Qed.

Ltac cmp_cases a b :=
  let E := fresh "E" in
  destruct (linkaddr_cmp a b) eqn:E;
  [apply linkaddr_cmp_true in E | apply linkaddr_cmp_false in E].

Lemma set_trust_same n : set_trust n (trust n) = n.
Proof. by destruct n. Qed.

(** ** What the loops do to the table *)

Lemma fmap_ext_all {A B} (f g : A → B) (l : list A) :
  (∀ x, f x = g x) → f <$> l = g <$> l.
Proof. intros E. induction l as [|x l IH]; csimpl; [done|]. by rewrite E, IH. Qed.

Lemma update_entries_fmap p tbl : update_entries p tbl = update_entry p <$> tbl.
Proof. induction tbl as [|e tbl IH]; csimpl; [done|]. by rewrite IH. Qed.

Lemma recv_loop_fmap now s tbl :
  recv_loop now s tbl
  = (λ e, if linkaddr_cmp s (addr e)
          then ctimer_set now NEIGHBOR_TIMEOUT e else e) <$> tbl.
Proof. induction tbl as [|e tbl IH]; csimpl; [done|]. by rewrite IH. Qed.

Lemma forward_loop_fmap now p tbl :
  forward_loop now p tbl
  = (λ n, if linkaddr_cmp p (addr n) then penalise now n else n) <$> tbl.
Proof. induction tbl as [|e tbl IH]; csimpl; [done|]. by rewrite IH. Qed.

Lemma update_entry_eq p e :
  update_entry p e = set_trust e (merged_trust (addr e) (trust e) p).
Proof.
  unfold update_entry, merged_trust.
  cmp_cases (nt_addr p) (addr e);
    destruct (Z.eqb_spec (nt_trust p) (trust e)) as [Ht|Ht]; simpl;
    cmp_cases (addr e) sink_addr;
    repeat case_decide; try tauto; try reflexivity;
    by rewrite set_trust_same.
Qed.

Lemma merge_rows_pointwise ps tbl :
  foldl (λ (t : list neighbor) p, update_entry p <$> t) tbl ps
  = (λ e, set_trust e (foldl (merged_trust (addr e)) (trust e) ps)) <$> tbl.
Proof.
  revert tbl. induction ps as [|p ps IH]; intros tbl; simpl.
  - rewrite <- (list_fmap_id tbl) at 1. apply fmap_ext_all.
    intros e. by rewrite set_trust_same.
  - rewrite IH, <- list_fmap_compose. apply fmap_ext_all.
    intros e. simpl. by rewrite update_entry_eq.
Qed.

Lemma printf_table l st : neighbor_table (printf l st) = neighbor_table st.
Proof. done. Qed.

Lemma printf_mem l st : neighbor_mem (printf l st) = neighbor_mem st.
Proof. done. Qed.

Lemma print_own_table tbl st :
  neighbor_table (print_own tbl st) = neighbor_table st.
Proof. revert st. induction tbl as [|e tbl IH]; intros st; simpl; [done|]. by rewrite IH. Qed.

Lemma print_own_mem tbl st : neighbor_mem (print_own tbl st) = neighbor_mem st.
Proof. revert st. induction tbl as [|e tbl IH]; intros st; simpl; [done|]. by rewrite IH. Qed.

Lemma update_rows_mem todo i nt st :
  neighbor_mem (update_rows todo i nt st) = neighbor_mem st.
Proof.
  revert i st. induction todo as [|todo IH]; intros i st; simpl; [done|].
  destruct (nt_trust (nt_at nt i) =? 0); [done|]. by rewrite IH.
Qed.

Lemma update_rows_table todo i nt st :
  neighbor_table (update_rows todo i nt st)
  = foldl (λ (t : list neighbor) p, update_entry p <$> t) (neighbor_table st)
      (meaningful (take todo (drop i nt))).
Proof.
  revert i st. induction todo as [|todo IH]; intros i st; simpl; [done|].
  unfold nt_at. destruct (nt !! i) as [p|] eqn:Hp; simpl.
  - rewrite (drop_S _ _ _ Hp). simpl.
    destruct (nt_trust p =? 0); [done|].
    rewrite IH. simpl. by rewrite update_entries_fmap.
  - rewrite drop_ge by (by apply lookup_ge_None). done.
Qed.

Lemma update_table_table nt st :
  neighbor_table (update_table nt st)
  = (λ e, set_trust e (foldl (merged_trust (addr e)) (trust e) (processed nt)))
      <$> neighbor_table st.
Proof.
  unfold update_table. rewrite printf_table, print_own_table, printf_table.
  rewrite update_rows_table, merge_rows_pointwise. by rewrite drop_0.
Qed.

Lemma update_table_mem nt st :
  neighbor_mem (update_table nt st) = neighbor_mem st.
Proof.
  unfold update_table. cbv zeta.
  by rewrite printf_mem, print_own_mem, printf_mem, update_rows_mem.
Qed.

Lemma update_table_addrs nt st :
  addrs (neighbor_table (update_table nt st)) = addrs (neighbor_table st).
Proof.
  rewrite update_table_table. unfold addrs.
  rewrite <- list_fmap_compose. by apply fmap_ext_all.
Qed.

Lemma recv_loop_addrs now s tbl : addrs (recv_loop now s tbl) = addrs tbl.
Proof.
  rewrite recv_loop_fmap. unfold addrs. rewrite <- list_fmap_compose.
  apply fmap_ext_all. intros e. simpl. by destruct (linkaddr_cmp s (addr e)).
Qed.

Lemma penalise_eq now n :
  penalise now n
  = {| addr := addr n;
       trust := if (ulong_sub now (last_received n) <? MINIMUM_DELAY)
                   && (49 <? trust n)
                then int_mul_0_99 (trust n) else trust n;
       ctimer := now + NEIGHBOR_TIMEOUT;
       last_received := now |}.
Proof. unfold penalise. simpl. by destruct (_ && _). Qed.

Lemma forward_loop_addrs now p tbl : addrs (forward_loop now p tbl) = addrs tbl.
Proof.
  rewrite forward_loop_fmap. unfold addrs. rewrite <- list_fmap_compose.
  apply fmap_ext_all. intros e. simpl.
  destruct (linkaddr_cmp p (addr e)); [|done]. by rewrite penalise_eq.
Qed.

Lemma forward_table self now rand o d p h st :
  neighbor_table (forward self now rand o d p h st).2
  = if negb (linkaddr_cmp p self) && addr_is_blocked p (neighbor_table st)
    then neighbor_table st
    else forward_loop now p (neighbor_table st).
Proof.
  unfold forward.
  destruct (negb (linkaddr_cmp p self) && addr_is_blocked p (neighbor_table st));
    [done|].
  simpl. destruct (0 <? _); [|done]. by destruct (walk _ _ _).
Qed.

Lemma forward_mem self now rand o d p h st :
  neighbor_mem (forward self now rand o d p h st).2 = neighbor_mem st.
Proof.
  unfold forward.
  destruct (negb (linkaddr_cmp p self) && addr_is_blocked p (neighbor_table st));
    [done|].
  simpl. destruct (0 <? _); [|done]. by destruct (walk _ _ _).
Qed.

Lemma recv_table now s p h st :
  neighbor_table (recv now s p h st)
  = if addr_is_blocked s (neighbor_table st) then neighbor_table st
    else recv_loop now s (neighbor_table st).
Proof. unfold recv. by destruct (addr_is_blocked s (neighbor_table st)). Qed.

Lemma recv_mem now s p h st : neighbor_mem (recv now s p h st) = neighbor_mem st.
Proof. unfold recv. by destruct (addr_is_blocked s (neighbor_table st)). Qed.

Lemma remove_neighbor_table now k st :
  neighbor_table (remove_neighbor now k st)
  = match neighbor_table st !! k with
    | Some n =>
        if negb (linkaddr_cmp sink_addr (addr n)) && (MAT <=? trust n)
        then <[k := ctimer_set now NEIGHBOR_TIMEOUT n]> (neighbor_table st)
        else neighbor_table st
    | None => neighbor_table st
    end.
Proof.
  unfold remove_neighbor. destruct (neighbor_table st !! k) as [n|]; [|done].
  destruct (linkaddr_cmp sink_addr (addr n)); [done|]. simpl.
  by destruct (MAT <=? trust n).
Qed.

Lemma remove_neighbor_mem now k st :
  neighbor_mem (remove_neighbor now k st) = neighbor_mem st.
Proof.
  unfold remove_neighbor. destruct (neighbor_table st !! k) as [n|]; [|done].
  destruct (linkaddr_cmp sink_addr (addr n)); [done|].
  by destruct (MAT <=? trust n).
Qed.

Lemma remove_neighbor_addrs now k st :
  addrs (neighbor_table (remove_neighbor now k st)) = addrs (neighbor_table st).
Proof.
  rewrite remove_neighbor_table.
  destruct (neighbor_table st !! k) as [n|] eqn:Hk; [|done].
  destruct (negb _ && _); [|done].
  unfold addrs. rewrite list_fmap_insert. simpl.
  apply list_insert_id. by rewrite list_lookup_fmap, Hk.
Qed.

(** ** The broadcast handler *)

Lemma broadcast_scan_unknown from tbl :
  broadcast_scan from tbl = Unknown ↔ from ∉ addrs tbl.
Proof.
  unfold addrs. induction tbl as [|e tbl IH]; csimpl.
  - split; [intros _; apply not_elem_of_nil | done].
  - rewrite not_elem_of_cons. cmp_cases from (addr e).
    + split; [by destruct (trust e <? 50) | tauto].
    + rewrite IH. tauto.
Qed.

Lemma broadcast_scan_refused from tbl e :
  NoDup (addrs tbl) → e ∈ tbl → addr e = from → trust e < 50 →
  broadcast_scan from tbl = Refused.
Proof.
  unfold addrs. intros Hnd Hin Ha Ht.
  induction tbl as [|e0 tbl IH]; [by apply elem_of_nil in Hin|].
  csimpl in *. apply NoDup_cons in Hnd as [Hfresh Hnd].
  apply elem_of_cons in Hin as [->|Hin].
  - rewrite Ha, linkaddr_cmp_refl.
    by destruct (Z.ltb_spec (trust e0) 50); [|lia].
  - cmp_cases from (addr e0); [|by apply IH].
    exfalso. apply Hfresh. rewrite <- E, <- Ha.
    by apply list_elem_of_fmap_2.
Qed.

Lemma broadcast_recv_table now from payload st :
  neighbor_table (broadcast_recv now from payload st)
  = match broadcast_scan from (neighbor_table st) with
    | Refused => neighbor_table st
    | Accepted =>
        neighbor_table (update_table (packetbuf_copyto payload) st)
    | Unknown =>
        if decide (neighbor_mem st < MAX_NEIGHBORS)%nat
        then neighbor_table
               (update_table (packetbuf_copyto payload)
                  (set_table (neighbor_table st ++ [new_neighbor now from]) st))
        else neighbor_table (update_table (packetbuf_copyto payload) st)
    end.
Proof.
  unfold broadcast_recv. cbv zeta. rewrite printf_table.
  destruct (broadcast_scan from (neighbor_table st)); [done|..].
  - by rewrite !update_table_table.
  - unfold memb_alloc. rewrite printf_mem.
    case_decide; by rewrite !update_table_table.
Qed.

Lemma broadcast_recv_mem now from payload st :
  neighbor_mem (broadcast_recv now from payload st)
  = match broadcast_scan from (neighbor_table st) with
    | Unknown =>
        if decide (neighbor_mem st < MAX_NEIGHBORS)%nat
        then S (neighbor_mem st) else neighbor_mem st
    | _ => neighbor_mem st
    end.
Proof.
  unfold broadcast_recv. cbv zeta. rewrite printf_table.
  destruct (broadcast_scan from (neighbor_table st)); [done|..].
  - by rewrite update_table_mem.
  - unfold memb_alloc. rewrite printf_mem.
    case_decide; by rewrite update_table_mem.
Qed.

Lemma broadcast_recv_addrs now from payload st :
  addrs (neighbor_table (broadcast_recv now from payload st))
  = addrs (neighbor_table st)
    ++ match broadcast_scan from (neighbor_table st) with
       | Unknown =>
           if decide (neighbor_mem st < MAX_NEIGHBORS)%nat then [from] else []
       | _ => []
       end.
Proof.
  rewrite broadcast_recv_table.
  destruct (broadcast_scan from (neighbor_table st)).
  - by rewrite app_nil_r.
  - by rewrite update_table_addrs, app_nil_r.
  - case_decide; rewrite update_table_addrs; simpl.
    + unfold addrs. by rewrite fmap_app.
    + by rewrite app_nil_r.
Qed.

(** ** Invariants of a run *)

Section Runs.

(* linkaddr_node_addr of the node that runs *)
Variable self : linkaddr.

Lemma handle_addrs st ev :
  ∃ new, addrs (neighbor_table (handle self st ev))
         = addrs (neighbor_table st) ++ new
         ∧ (new = [] ∨ ∃ a, new = [a] ∧ (a ∉ addrs (neighbor_table st))
                            ∧ neighbor_mem (handle self st ev)
                              = S (neighbor_mem st)
                            ∧ (neighbor_mem st < MAX_NEIGHBORS)%nat)
         ∧ (new = [] → neighbor_mem (handle self st ev) = neighbor_mem st).
Proof.
  destruct ev as [now from payload|now s p h|now rand o d p h|now k]; simpl.
  - rewrite broadcast_recv_addrs, broadcast_recv_mem.
    destruct (broadcast_scan from (neighbor_table st)) eqn:Hscan;
      try (exists []; by auto).
    case_decide; [|exists []; by auto].
    exists [from]. split; [done|]. split; [|done].
    right. exists from. by rewrite <- broadcast_scan_unknown.
  - exists []. rewrite app_nil_r, recv_table, recv_mem.
    destruct (addr_is_blocked s (neighbor_table st));
      [|rewrite recv_loop_addrs]; auto.
  - exists []. rewrite app_nil_r, forward_table, forward_mem.
    destruct (negb _ && _); [|rewrite forward_loop_addrs]; auto.
  - exists []. rewrite app_nil_r, remove_neighbor_addrs, remove_neighbor_mem.
    auto.
Qed.

Lemma handle_pool_inv st ev : pool_inv st → pool_inv (handle self st ev).
Proof.
  intros [Hlen Hcap].
  destruct (handle_addrs st ev) as (new & Ha & Hnew & Hmem).
  assert (Hl : length (neighbor_table (handle self st ev))
               = (length (neighbor_table st) + length new)%nat).
  { rewrite <- (length_fmap addr (neighbor_table (handle self st ev))).
    fold (addrs (neighbor_table (handle self st ev))).
    rewrite Ha, length_app. unfold addrs. by rewrite length_fmap. }
  unfold pool_inv. rewrite Hl.
  destruct Hnew as [->|(a & -> & _ & HS & Hlt)].
  - rewrite Hmem by done. simpl. lia.
  - rewrite HS. simpl. lia.
Qed.

Lemma handle_addr_unique st ev :
  NoDup (addrs (neighbor_table st)) →
  NoDup (addrs (neighbor_table (handle self st ev))).
Proof.
  intros Hnd. destruct (handle_addrs st ev) as (new & -> & Hnew & _).
  destruct Hnew as [->|(a & -> & Hfresh & _)].
  - by rewrite app_nil_r.
  - apply NoDup_app. split; [done|]. split; [|apply NoDup_singleton].
    intros x Hx Hx'. apply list_elem_of_singleton in Hx'. by subst.
Qed.

Lemma run_snoc evs ev st :
  run self (evs ++ [ev]) st = handle self (run self evs st) ev.
Proof. unfold run. by rewrite foldl_app. Qed.

Lemma run_pool_inv evs : pool_inv (run self evs init_node).
Proof.
  induction evs as [|ev evs IH] using rev_ind.
  - split; simpl; [done|]. unfold MAX_NEIGHBORS. lia.
  - rewrite run_snoc. by apply handle_pool_inv.
Qed.

Lemma run_addr_unique evs :
  NoDup (addrs (neighbor_table (run self evs init_node))).
Proof.
  induction evs as [|ev evs IH] using rev_ind.
  - apply NoDup_nil_2.
  - rewrite run_snoc. by apply handle_addr_unique.
Qed.

End Runs.

(** ** Trust stays between 0 and 100 when the wire does *)

Lemma merged_trust_range a cur p :
  0 ≤ cur ≤ 100 → 0 ≤ nt_trust p ≤ 100 → 0 ≤ merged_trust a cur p ≤ 100.
Proof.
  intros Hc Hp. unfold merged_trust. repeat case_decide; try lia.
  rewrite int_mean_floor by (destruct int_max_value as [_ ->]; lia).
  split; [apply Z.div_pos; lia | apply Z.div_le_upper_bound; lia].
Qed.

Lemma merged_fold_range a ps cur :
  Forall (λ p, 0 ≤ nt_trust p ≤ 100) ps → 0 ≤ cur ≤ 100 →
  0 ≤ foldl (merged_trust a) cur ps ≤ 100.
Proof.
  intros Hps. revert cur. induction Hps as [|p ps Hp Hps IH]; intros cur Hc.
  - done.
  - simpl. apply IH. by apply merged_trust_range.
Qed.

Lemma meaningful_Forall (P : neighbor_trust → Prop) l :
  Forall P l → Forall P (meaningful l).
Proof.
  induction 1 as [|p l Hp Hl IH]; simpl; [done|].
  destruct (nt_trust p =? 0); by constructor.
Qed.

Lemma processed_copyto_Forall (P : neighbor_trust → Prop) payload :
  P zero_trust → Forall P payload → Forall P (processed (packetbuf_copyto payload)).
Proof.
  intros Hz Hp. apply meaningful_Forall, Forall_take, Forall_take.
  apply Forall_app. split; [done|]. by apply Forall_replicate.
Qed.

Lemma update_table_trust_range nt st :
  Forall (λ p, 0 ≤ nt_trust p ≤ 100) (processed nt) →
  trust_in_range (neighbor_table st) →
  trust_in_range (neighbor_table (update_table nt st)).
Proof.
  intros Hnt Ht. rewrite update_table_table. unfold trust_in_range.
  apply Forall_fmap. eapply Forall_impl; [exact Ht|].
  intros e He. simpl. by apply merged_fold_range.
Qed.

Lemma penalise_trust_range now n :
  0 ≤ trust n ≤ 100 → 0 ≤ trust (penalise now n) ≤ 100.
Proof.
  intros H. rewrite penalise_eq. simpl.
  destruct (_ && _); [|done].
  pose proof (int_mul_0_99_bounds (trust n) H). lia.
Qed.

Lemma handle_trust_range self st ev :
  wire_in_range ev → trust_in_range (neighbor_table st) →
  trust_in_range (neighbor_table (handle self st ev)).
Proof.
  intros Hw Ht.
  destruct ev as [now from payload|now s p h|now rand o d p h|now k]; simpl in *.
  - rewrite broadcast_recv_table.
    assert (Hproc : Forall (λ p, 0 ≤ nt_trust p ≤ 100)
                      (processed (packetbuf_copyto payload))).
    { apply processed_copyto_Forall; [simpl; lia | done]. }
    destruct (broadcast_scan from (neighbor_table st)); [done|..].
    + by apply update_table_trust_range.
    + case_decide; apply update_table_trust_range; try done.
      simpl. apply Forall_app. split; [done|].
      apply Forall_singleton. simpl. lia.
  - rewrite recv_table. destruct (addr_is_blocked s (neighbor_table st)); [done|].
    rewrite recv_loop_fmap. apply Forall_fmap.
    eapply Forall_impl; [exact Ht|]. intros e He. simpl.
    by destruct (linkaddr_cmp s (addr e)).
  - rewrite forward_table. destruct (negb _ && _); [done|].
    rewrite forward_loop_fmap. apply Forall_fmap.
    eapply Forall_impl; [exact Ht|]. intros e He. simpl.
    destruct (linkaddr_cmp p (addr e)); [|done].
    by apply penalise_trust_range.
  - rewrite remove_neighbor_table.
    destruct (neighbor_table st !! k) as [n|] eqn:Hk; [|done].
    destruct (negb _ && _); [|done].
    apply Forall_insert; [done|]. simpl.
    by apply (Forall_lookup_1 _ _ _ _ Ht Hk).
Qed.

(** C2, as amended: in every state a run reaches from the initial state,
    every entry of the neighbour table has 0 <= trust <= 100, provided every
    trust field of every broadcast received on the way lies between 0 and
    100. *)
Theorem C2_trust_in_range_on_ranged_wire self evs :
  Forall wire_in_range evs →
  trust_in_range (neighbor_table (run self evs init_node)).
Proof.
  induction evs as [|ev evs IH] using rev_ind; intros Hw.
  - constructor.
  - apply Forall_app in Hw as [Hevs Hev].
    apply Forall_inv in Hev.
    rewrite run_snoc. apply handle_trust_range; [exact Hev | exact (IH Hevs)].
Qed.

Lemma C2_trust_in_range_witness :
  trust_in_range
    (neighbor_table
       (run (node_addr 2)
          [Broadcast 0 (node_addr 3)
             [{| nt_addr := node_addr 3; nt_trust := 50 |}];
           Forward 2 7 (node_addr 9) sink_addr (node_addr 3) 1]
          init_node)).
Proof.
  apply C2_trust_in_range_on_ranged_wire.
  repeat (constructor || simpl || lia).
Defined.

(** C2, as stated, fails: one broadcast from a new neighbour 3.0 whose vector
    carries the trust 300 for 3.0 itself leaves that entry with trust 200. *)
Lemma C2_wire_trust_escapes_range :
  ¬ trust_in_range
      (neighbor_table
         (run (node_addr 2)
            [Broadcast 0 (node_addr 3)
               [{| nt_addr := node_addr 3; nt_trust := 300 |}]]
            init_node)).
Proof.
  assert (E : neighbor_table
                (run (node_addr 2)
                   [Broadcast 0 (node_addr 3)
                      [{| nt_addr := node_addr 3; nt_trust := 300 |}]]
                   init_node)
              = [entry (node_addr 3) 200 0]) by (vm_compute; reflexivity).
  rewrite E. intros H. apply Forall_inv in H. simpl in H. lia.
Qed.

(** ** Blocking *)

Lemma addr_is_blocked_true a tbl :
  addr_is_blocked a tbl = true ↔ ∃ n, n ∈ tbl ∧ addr n = a ∧ trust n < MAT.
Proof.
  induction tbl as [|e tbl IH]; simpl.
  - split; [done|]. intros (n & Hn & _). by apply elem_of_nil in Hn.
  - cmp_cases a (addr e); simpl.
    + destruct (Z.ltb_spec (trust e) MAT) as [Hlt|Hge].
      * split; [|done]. intros _. exists e. split; [left|done].
      * rewrite IH. split; intros (n & Hn & Ha & Ht).
        -- exists n. split; [by right|done].
        -- apply elem_of_cons in Hn as [->|Hn]; [lia|]. by exists n.
    + rewrite IH. split; intros (n & Hn & Ha & Ht).
      * exists n. split; [by right|done].
      * apply elem_of_cons in Hn as [->|Hn]; [congruence|]. by exists n.
Qed.

Lemma addr_is_blocked_unknown a tbl :
  a ∉ addrs tbl → addr_is_blocked a tbl = false.
Proof.
  intros Hfresh. apply not_true_is_false. rewrite addr_is_blocked_true.
  intros (n & Hn & Ha & _). apply Hfresh. rewrite <- Ha.
  by apply list_elem_of_fmap_2.
Qed.

Lemma dropped_test self p tbl :
  negb (linkaddr_cmp p self) && addr_is_blocked p tbl = true
  ↔ dropped self p tbl.
Proof.
  unfold dropped. rewrite andb_true_iff, negb_true_iff, linkaddr_cmp_false.
  tauto.
Qed.

(** C7: [addr_is_blocked a] is true exactly when the table has an entry with
    address [a] and trust strictly below MAT = 50; it is false for an address
    without an entry; and with the table {5.0: 49} the address 5.0 is
    blocked. *)
Theorem C7_addr_is_blocked_iff a tbl :
  MAT = 50
  ∧ (addr_is_blocked a tbl = true
     ↔ ∃ n, n ∈ tbl ∧ addr n = a ∧ trust n < MAT)
  ∧ (a ∉ addrs tbl → addr_is_blocked a tbl = false)
  ∧ addr_is_blocked (node_addr 5) [entry (node_addr 5) 49 0] = true.
Proof.
  split; [done|]. split; [apply addr_is_blocked_true|].
  split; [apply addr_is_blocked_unknown | done].
Qed.

Lemma C7_addr_is_blocked_witness :
  addr_is_blocked (node_addr 8) [entry (node_addr 5) 49 0] = false.
Proof.
  apply (C7_addr_is_blocked_iff (node_addr 8) [entry (node_addr 5) 49 0]).
  apply (bool_decide_unpack _). vm_compute. exact I.
Defined.

(** ** The forward handler *)

Lemma walk_lookup tbl i num :
  i ≤ num → walk i num tbl = tbl !! Z.to_nat (num - i).
Proof.
  revert i. induction tbl as [|n tbl IH]; intros i Hi; simpl; [done|].
  destruct (Z.eqb_spec i num) as [->|Hne]; simpl.
  - by rewrite Z.sub_diag.
  - rewrite IH by lia.
    by replace (Z.to_nat (num - i)) with (S (Z.to_nat (num - (i + 1)))) by lia.
Qed.

Lemma forward_loop_length now p tbl :
  length (forward_loop now p tbl) = length tbl.
Proof. by rewrite forward_loop_fmap, length_fmap. Qed.

Lemma forward_loop_lookup_addr now p tbl k :
  addr <$> forward_loop now p tbl !! k = addr <$> tbl !! k.
Proof.
  rewrite <- !list_lookup_fmap. fold (addrs (forward_loop now p tbl)).
  by rewrite forward_loop_addrs.
Qed.

Lemma forward_hop_cases self now rand o d p h st :
  0 ≤ rand ≤ RANDOM_RAND_MAX →
  (dropped self p (neighbor_table st) →
   (forward self now rand o d p h st).1 = None)
  ∧ (¬ dropped self p (neighbor_table st) → neighbor_table st ≠ [] →
     ∃ n, neighbor_table st
            !! Z.to_nat (rand mod list_length (neighbor_table st)) = Some n
          ∧ (forward self now rand o d p h st).1 = Some (addr n))
  ∧ (¬ dropped self p (neighbor_table st) → neighbor_table st = [] →
     (forward self now rand o d p h st).1 = None).
Proof.
  intros Hrand. unfold forward.
  destruct (negb (linkaddr_cmp p self)
            && addr_is_blocked p (neighbor_table st)) eqn:Hgate.
  { apply dropped_test in Hgate. by repeat split. }
  assert (Hnd : ¬ dropped self p (neighbor_table st)).
  { rewrite <- dropped_test, Hgate. done. }
  split; [done|]. cbv zeta. simpl neighbor_table.
  unfold list_length. rewrite forward_loop_length.
  split.
  - intros _ Hne.
    assert (Hlen : 0 < Z.of_nat (length (neighbor_table st))).
    { destruct (neighbor_table st); [done | simpl; lia]. }
    destruct (Z.ltb_spec 0 (Z.of_nat (length (neighbor_table st)))); [|lia].
    unfold int_rem. rewrite Z.rem_mod_nonneg by lia.
    rewrite walk_lookup, Z.sub_0_r by (apply Z.mod_pos_bound; lia).
    pose proof (Z.mod_pos_bound rand _ Hlen) as Hk.
    destruct (lookup_lt_is_Some_2 (neighbor_table st)
                (Z.to_nat (rand mod Z.of_nat (length (neighbor_table st)))))
      as [n Hn]; [lia|].
    exists n. split; [done|].
    pose proof (forward_loop_lookup_addr now p (neighbor_table st)
                  (Z.to_nat (rand mod Z.of_nat (length (neighbor_table st)))))
      as Ha.
    rewrite Hn in Ha. simpl in Ha.
    destruct (forward_loop now p (neighbor_table st) !! _) as [n'|];
      [|done].
    simpl in *. congruence.
  - intros _ ->. done.
Qed.

(** C5: the forward handler returns no next hop when prevhop is not the
    node itself and is blocked; otherwise, on a non-empty table, it returns the
    address of entry number [rand mod length] in iteration order, whichever
    entry that is (with the table {3.0: 100} a packet from 3.0 for 3.0 goes
    to 3.0); and on an empty table it returns no next hop. *)
Theorem C5_forward_next_hop self now rand o d p h st :
  0 ≤ rand ≤ RANDOM_RAND_MAX →
  (dropped self p (neighbor_table st) →
   (forward self now rand o d p h st).1 = None)
  ∧ (¬ dropped self p (neighbor_table st) → neighbor_table st ≠ [] →
     ∃ n, neighbor_table st
            !! Z.to_nat (rand mod list_length (neighbor_table st)) = Some n
          ∧ (forward self now rand o d p h st).1 = Some (addr n))
  ∧ (¬ dropped self p (neighbor_table st) → neighbor_table st = [] →
     (forward self now rand o d p h st).1 = None)
  ∧ (forward (node_addr 2) 9 0 (node_addr 9) (node_addr 3) (node_addr 3) 1
       (with_table [entry (node_addr 3) 100 0])).1
    = Some (node_addr 3).
Proof.
  intros Hrand.
  destruct (forward_hop_cases self now rand o d p h st Hrand) as (H1 & H2 & H3).
  by repeat split.
Qed.

Lemma C5_forward_next_hop_witness :
  ∃ n, [entry (node_addr 3) 100 0; entry (node_addr 4) 100 0]
         !! Z.to_nat (7 mod 2) = Some n
       ∧ (forward (node_addr 2) 9 7 (node_addr 9) sink_addr (node_addr 3) 1
            (with_table [entry (node_addr 3) 100 0; entry (node_addr 4) 100 0])).1
         = Some (addr n).
Proof.
  apply (C5_forward_next_hop (node_addr 2) 9 7 (node_addr 9) sink_addr
           (node_addr 3) 1
           (with_table [entry (node_addr 3) 100 0; entry (node_addr 4) 100 0])).
  - vm_compute. split; discriminate.
  - intros [_ H]. vm_compute in H. discriminate H.
  - discriminate.
Defined.

(** ** The expiry callback *)

(** C9: when the timer of the entry [n] at position [k] fires, nothing at
    all changes if [n] is the sink's entry; otherwise, if its trust is at
    least MAT = 50, the only change is that the timer of [n] is set to expire
    NEIGHBOR_TIMEOUT = 10 seconds from now; otherwise the only effect is one
    log line: the table is what it was, so [n] is still in it and its address
    is still blocked. *)
Theorem C9_expiry_keeps_entry now k st n :
  neighbor_table st !! k = Some n →
  (addr n = sink_addr → remove_neighbor now k st = st)
  ∧ (addr n ≠ sink_addr → MAT ≤ trust n →
     remove_neighbor now k st
     = set_table
         (<[k := {| addr := addr n; trust := trust n; ctimer := now + 10;
                    last_received := last_received n |}]> (neighbor_table st))
         st)
  ∧ (addr n ≠ sink_addr → trust n < MAT →
     remove_neighbor now k st = printf (LogTrustFell (addr n)) st
     ∧ neighbor_table (remove_neighbor now k st) = neighbor_table st
     ∧ neighbor_mem (remove_neighbor now k st) = neighbor_mem st
     ∧ addr_is_blocked (addr n) (neighbor_table (remove_neighbor now k st))
       = true).
Proof.
  intros Hk. unfold remove_neighbor. rewrite Hk.
  cmp_cases sink_addr (addr n).
  - split; [done|]. split; intros Hne; congruence.
  - split; [congruence|].
    destruct (Z.leb_spec MAT (trust n)) as [Hge|Hlt].
    + split; [done|]. intros _ Hlt. lia.
    + split; [intros _ Hge; lia|]. intros _ _.
      split; [done|]. split; [done|]. split; [done|].
      simpl. apply addr_is_blocked_true. exists n.
      split; [by eapply list_elem_of_lookup_2|done].
Qed.

Lemma C9_expiry_witness :
  remove_neighbor 30 0 (with_table [entry (node_addr 5) 49 0])
  = printf (LogTrustFell (node_addr 5)) (with_table [entry (node_addr 5) 49 0]).
Proof.
  apply (C9_expiry_keeps_entry 30 0
           (with_table [entry (node_addr 5) 49 0]) (entry (node_addr 5) 49 0)).
  - reflexivity.
  - discriminate.
  - vm_compute. reflexivity.
Defined.

(** ** Entries are never removed *)

(** C10: each handler leaves every entry in place with the address it had:
    the broadcast handler can only append to the list of addresses, the
    unicast handler, the forward handler and the expiry callback leave that
    list as it is; and in every state a run reaches the table has at most
    MAX_NEIGHBORS = 16 entries. *)
Theorem C10_no_entry_removed :
  (∀ now from payload st,
     addrs (neighbor_table st)
       `prefix_of` addrs (neighbor_table (broadcast_recv now from payload st)))
  ∧ (∀ now s p h st,
       addrs (neighbor_table (recv now s p h st)) = addrs (neighbor_table st))
  ∧ (∀ self now rand o d p h st,
       addrs (neighbor_table (forward self now rand o d p h st).2)
       = addrs (neighbor_table st))
  ∧ (∀ now k st,
       addrs (neighbor_table (remove_neighbor now k st))
       = addrs (neighbor_table st))
  ∧ (∀ self evs,
       (length (neighbor_table (run self evs init_node)) ≤ MAX_NEIGHBORS)%nat)
  ∧ MAX_NEIGHBORS = 16%nat.
Proof.
  split; [|split; [|split; [|split; [|split; [|done]]]]].
  - intros now from payload st. rewrite broadcast_recv_addrs.
    by apply prefix_app_r.
  - intros now s p h st. rewrite recv_table.
    destruct (addr_is_blocked s (neighbor_table st)); [done|].
    apply recv_loop_addrs.
  - intros self now rand o d p h st. rewrite forward_table.
    destruct (negb _ && _); [done|]. apply forward_loop_addrs.
  - apply remove_neighbor_addrs.
  - intros self evs. destruct (run_pool_inv self evs) as [-> H]. done.
Qed.

(** ** Gossip from a blocked peer *)

Lemma broadcast_recv_refused now from payload st e :
  NoDup (addrs (neighbor_table st)) →
  e ∈ neighbor_table st → addr e = from → trust e < 50 →
  broadcast_recv now from payload st = printf (LogBroadcast from) st.
Proof.
  intros Hnd Hin Ha Ht. unfold broadcast_recv. cbv zeta. rewrite printf_table.
  by rewrite (broadcast_scan_refused from _ e Hnd Hin Ha Ht).
Qed.

(** C6: a broadcast from an address that has an entry with trust below 50
    changes nothing but the console, table and pool are what they were; this
    holds for every table with unique addresses and so in every state a run
    reaches.  With the table {6.0: 30, 7.0: 80}, a broadcast from 6.0 carrying
    {7.0: 10} leaves the table, hence the trust 80 of 7.0, unchanged. *)
Theorem C6_blocked_gossip_refused :
  (∀ now from payload st e,
     NoDup (addrs (neighbor_table st)) →
     e ∈ neighbor_table st → addr e = from → trust e < 50 →
     broadcast_recv now from payload st = printf (LogBroadcast from) st
     ∧ neighbor_table (broadcast_recv now from payload st) = neighbor_table st
     ∧ neighbor_mem (broadcast_recv now from payload st) = neighbor_mem st)
  ∧ (∀ self evs now from payload e,
       e ∈ neighbor_table (run self evs init_node) →
       addr e = from → trust e < 50 →
       neighbor_table (broadcast_recv now from payload (run self evs init_node))
       = neighbor_table (run self evs init_node)
       ∧ neighbor_mem (broadcast_recv now from payload (run self evs init_node))
         = neighbor_mem (run self evs init_node))
  ∧ neighbor_table
      (broadcast_recv 5 (node_addr 6)
         [{| nt_addr := node_addr 7; nt_trust := 10 |}]
         (with_table [entry (node_addr 6) 30 0; entry (node_addr 7) 80 0]))
    = [entry (node_addr 6) 30 0; entry (node_addr 7) 80 0].
Proof.
  split; [|split; [|done]].
  - intros now from payload st e Hnd Hin Ha Ht.
    by rewrite (broadcast_recv_refused now from payload st e).
  - intros self evs now from payload e Hin Ha Ht.
    rewrite (broadcast_recv_refused now from payload _ e); try done.
    apply run_addr_unique.
Qed.

Lemma C6_blocked_gossip_witness :
  neighbor_table
    (broadcast_recv 5 (node_addr 6)
       [{| nt_addr := node_addr 7; nt_trust := 20 |}]
       (with_table [entry (node_addr 6) 30 0; entry (node_addr 7) 80 0]))
  = [entry (node_addr 6) 30 0; entry (node_addr 7) 80 0].
Proof.
  destruct C6_blocked_gossip_refused as [H _].
  apply (H 5 (node_addr 6)
           [{| nt_addr := node_addr 7; nt_trust := 20 |}]
           (with_table [entry (node_addr 6) 30 0; entry (node_addr 7) 80 0])
           (entry (node_addr 6) 30 0)).
  - apply (bool_decide_unpack _). vm_compute. exact I.
  - apply (bool_decide_unpack _). vm_compute. exact I.
  - reflexivity.
  - simpl. lia.
Defined.

(** ** The rapid-forward penalty *)

Lemma penalise_spec now n :
  0 ≤ last_received n ≤ now → now ≤ ULONG_MAX →
  penalise now n
  = {| addr := addr n;
       trust := if decide (now - last_received n < MINIMUM_DELAY ∧ trust n > 49)
                then int_mul_0_99 (trust n) else trust n;
       ctimer := now + NEIGHBOR_TIMEOUT;
       last_received := now |}.
Proof.
  intros Hl Hn. rewrite penalise_eq. unfold ulong_sub.
  rewrite wrap_ulong_id by lia. f_equal.
  destruct (Z.ltb_spec (now - last_received n) MINIMUM_DELAY),
    (Z.ltb_spec 49 (trust n)); simpl; case_decide; try done; lia.
Qed.

Lemma forward_table_kept self now rand o d p h st :
  ¬ dropped self p (neighbor_table st) →
  neighbor_table (forward self now rand o d p h st).2
  = (λ n, if linkaddr_cmp p (addr n) then penalise now n else n)
      <$> neighbor_table st.
Proof.
  intros Hnd. rewrite forward_table, <- forward_loop_fmap.
  destruct (negb _ && _) eqn:Hgate; [|done].
  by apply dropped_test in Hgate.
Qed.

(** C4, as amended: when the forward handler does not drop the packet at its
    first test, an entry with another address than prevhop is left as it is,
    and an entry [n] with the address of prevhop gets its timer rearmed, its
    last_received set to now and, if now - last_received < 5 and trust > 49,
    its trust multiplied by 0.99 in double arithmetic and cut to an int, its
    trust being unchanged otherwise.  For a trust between 0 and 100 that
    product is trust * 99 / 100 rounded toward zero, it stays between 0 and
    100 and is never above the old trust.  An entry with trust 100 last heard
    at time t is left with trust 99 and last_received t + 2 by a forward event
    at t + 2, and a further forward event 5 or more seconds later changes the
    timestamp only. *)
Theorem C4_forward_penalty_unless_dropped :
  (∀ self now rand o d p h st k n,
     ¬ dropped self p (neighbor_table st) →
     neighbor_table st !! k = Some n →
     0 ≤ last_received n ≤ now → now ≤ ULONG_MAX →
     (addr n ≠ p →
      neighbor_table (forward self now rand o d p h st).2 !! k = Some n)
     ∧ (addr n = p →
        neighbor_table (forward self now rand o d p h st).2 !! k
        = Some {| addr := addr n;
                  trust := if decide (now - last_received n < MINIMUM_DELAY
                                      ∧ trust n > 49)
                           then int_mul_0_99 (trust n) else trust n;
                  ctimer := now + NEIGHBOR_TIMEOUT;
                  last_received := now |})
     ∧ (0 ≤ trust n ≤ 100 →
        int_mul_0_99 (trust n) = trust n * 99 / 100
        ∧ ∀ n', neighbor_table (forward self now rand o d p h st).2 !! k
                = Some n' → 0 ≤ trust n' ≤ trust n))
  ∧ (∀ self rand o d h t gap,
       0 ≤ t → 5 ≤ gap → t + 2 + gap ≤ ULONG_MAX →
       neighbor_table
         (forward self (t + 2) rand o d (node_addr 4) h
            (with_table [entry (node_addr 4) 100 t])).2
       = [entry (node_addr 4) 99 (t + 2)]
       ∧ neighbor_table
           (forward self (t + 2 + gap) rand o d (node_addr 4) h
              (with_table [entry (node_addr 4) 99 (t + 2)])).2
         = [entry (node_addr 4) 99 (t + 2 + gap)])
  ∧ MINIMUM_DELAY = 5.
Proof.
  split; [|split; [|done]].
  - intros self now rand o d p h st k n Hnd Hk Hl Hn.
    rewrite forward_table_kept by done.
    rewrite list_lookup_fmap, Hk. simpl.
    cmp_cases p (addr n).
    + rewrite penalise_spec by done.
      split; [congruence|]. split; [done|].
      intros Ht. split; [by apply int_mul_0_99_exact|].
      intros n' [= <-]. simpl.
      pose proof (int_mul_0_99_bounds (trust n) Ht).
      case_decide; lia.
    + split; [done|]. split; [congruence|].
      intros Ht. split; [by apply int_mul_0_99_exact|].
      intros n' [= <-]. lia.
  - intros self rand o d h t gap Ht Hgap Hmax.
    assert (Hnd : ∀ x l, ¬ dropped self (node_addr 4)
                           [entry (node_addr 4) x l] ∨ x < 50).
    { intros x l. destruct (Z.ltb_spec x 50) as [|Hx]; [by right|left].
      intros [_ Hb]. simpl in Hb.
      destruct (Z.ltb_spec x MAT) as [Hlt|_]; [unfold MAT in Hlt; lia|].
      discriminate Hb. }
    split.
    + destruct (Hnd 100 t) as [H|H]; [|lia].
      rewrite forward_table_kept by exact H. simpl.
      rewrite penalise_spec by (simpl; lia). simpl.
      case_decide as Hc; [|unfold MINIMUM_DELAY in Hc; lia].
      unfold entry. by rewrite (int_mul_0_99_exact 100) by lia.
    + destruct (Hnd 99 (t + 2)) as [H|H]; [|lia].
      rewrite forward_table_kept by exact H. simpl.
      rewrite penalise_spec by (simpl; lia). simpl.
      case_decide as Hc; [unfold MINIMUM_DELAY in Hc; lia|]. done.
Qed.

Lemma C4_forward_penalty_witness :
  neighbor_table
    (forward (node_addr 2) 1002 7 (node_addr 9) sink_addr (node_addr 4) 1
       (with_table [entry (node_addr 4) 100 1000])).2 !! 0%nat
  = Some {| addr := node_addr 4; trust := 99; ctimer := 1012;
            last_received := 1002 |}.
Proof.
  destruct C4_forward_penalty_unless_dropped as [H _].
  apply (H (node_addr 2) 1002 7 (node_addr 9) sink_addr (node_addr 4) 1
           (with_table [entry (node_addr 4) 100 1000]) 0%nat
           (entry (node_addr 4) 100 1000)).
  - intros [_ Hb]. vm_compute in Hb. discriminate Hb.
  - reflexivity.
  - simpl. lia.
  - vm_compute. discriminate.
  - reflexivity.
Defined.

(** C4, as stated, fails: with the table {5.0: 49} last heard at time 0, a
    forward event at time 7 with prevhop 5.0 is dropped at the first test and
    the entry for 5.0 keeps last_received 0 instead of getting 7. *)
Lemma C4_blocked_prevhop_timestamp_kept :
  ¬ (∀ n,
       n ∈ neighbor_table
             (forward (node_addr 2) 7 0 (node_addr 9) sink_addr (node_addr 5) 1
                blocked_5).2 →
       addr n = node_addr 5 → last_received n = 7).
Proof.
  intros H. specialize (H (entry (node_addr 5) 49 0)).
  assert (E : last_received (entry (node_addr 5) 49 0) = 7).
  { apply H; [vm_compute; left | reflexivity]. }
  discriminate E.
Qed.

(** ** The merge *)

(** C3, as amended: a merge works through the first 16 records of the
    vector in order and stops before the first one with trust 0.  Each
    processed record (a, t) sets the sink's entry to 100; sets any other entry
    for a whose trust differs from t to (trust + t) / 2 in int arithmetic,
    which is the floor of the mean when 0 <= trust + t <= INT_MAX; and leaves
    the trust of every other entry alone.  Nothing but trust values changes:
    no entry is inserted or removed and the pool is untouched.  With the table
    {2.0: 100, 3.0: 60}, the vector {3.0: 20} from 2.0 leaves 3.0 with trust
    40. *)
Theorem C3_merge_per_entry nt st :
  neighbor_table (update_table nt st)
  = (λ e, set_trust e
            (foldl (merged_trust (addr e)) (trust e) (processed nt)))
      <$> neighbor_table st
  ∧ neighbor_mem (update_table nt st) = neighbor_mem st
  ∧ (∀ cur p, merged_trust sink_addr cur p = 100)
  ∧ (∀ a cur p,
       a ≠ sink_addr → nt_addr p = a → nt_trust p ≠ cur →
       merged_trust a cur p = int_div (int_add cur (nt_trust p)) 2
       ∧ (0 ≤ cur + nt_trust p ≤ INT_MAX →
          merged_trust a cur p = (cur + nt_trust p) / 2))
  ∧ (∀ a cur p,
       a ≠ sink_addr → nt_addr p ≠ a ∨ nt_trust p = cur →
       merged_trust a cur p = cur)
  ∧ neighbor_table
      (broadcast_recv 5 (node_addr 2)
         [{| nt_addr := node_addr 3; nt_trust := 20 |}]
         (with_table [entry (node_addr 2) 100 0; entry (node_addr 3) 60 0]))
    = [entry (node_addr 2) 100 0; entry (node_addr 3) 40 0].
Proof.
  split; [apply update_table_table|]. split; [apply update_table_mem|].
  split; [|split; [|split]].
  - intros cur p. unfold merged_trust. by case_decide.
  - intros a cur p Ha Hp Ht. unfold merged_trust.
    repeat case_decide; try tauto.
    split; [done|]. apply int_mean_floor.
  - intros a cur p Ha Hp. unfold merged_trust.
    repeat case_decide; try done. tauto.
  - vm_compute. reflexivity.
Qed.

Lemma C3_merge_witness :
  merged_trust (node_addr 3) 60 {| nt_addr := node_addr 3; nt_trust := 20 |}
  = (60 + 20) / 2.
Proof.
  destruct (C3_merge_per_entry [] init_node) as (_ & _ & _ & H & _).
  apply (H (node_addr 3) 60 {| nt_addr := node_addr 3; nt_trust := 20 |}).
  - discriminate.
  - reflexivity.
  - simpl. lia.
  - vm_compute. split; discriminate.
Defined.

(** C3, as stated, fails: with the table {2.0: 100, 1.0: 100}, merging the
    vector {1.0: 50} leaves the sink's entry at 100, where the floor of the
    mean of 100 and 50 is 75. *)
Lemma C3_sink_record_not_averaged :
  neighbor_table (update_table sink_at_50 sink_known)
  ≠ (λ e, set_trust e
            (foldl (averaged_trust (addr e)) (trust e) (processed sink_at_50)))
      <$> neighbor_table sink_known.
Proof. vm_compute. intros H. discriminate H. Qed.

(** ** Merging the node's own snapshot *)

Lemma fill_nt_padding tbl pre m :
  (length tbl ≤ m)%nat →
  fill_nt tbl (length pre) (pre ++ replicate m zero_trust)
  = pre ++ (trust_record <$> tbl) ++ replicate (m - length tbl) zero_trust.
Proof.
  revert pre m. induction tbl as [|n tbl IH]; intros pre m Hm; simpl.
  - by rewrite Nat.sub_0_r.
  - destruct m as [|m]; [simpl in Hm; lia|]. simpl in *.
    replace (length pre) with (length pre + 0)%nat at 2 by lia.
    rewrite insert_app_r. simpl.
    change {| nt_addr := addr n; nt_trust := trust n |} with (trust_record n).
    assert (E : pre ++ trust_record n :: replicate m zero_trust
                = (pre ++ [trust_record n]) ++ replicate m zero_trust)
      by (by rewrite <- app_assoc).
    replace (S (length pre)) with (length (pre ++ [trust_record n]))
      by (rewrite length_app; simpl; lia).
    rewrite E, IH by lia. by rewrite <- app_assoc.
Qed.

Lemma broadcast_snapshot_eq tbl :
  (length tbl ≤ MAX_NEIGHBORS)%nat →
  broadcast_snapshot tbl
  = (trust_record <$> tbl)
    ++ replicate (MAX_NEIGHBORS - length tbl) zero_trust.
Proof. intros H. apply (fill_nt_padding tbl [] MAX_NEIGHBORS H). Qed.

Lemma meaningful_padding l m :
  meaningful (l ++ replicate m zero_trust) = meaningful l.
Proof.
  induction l as [|p l IH]; simpl.
  - by destruct m.
  - by rewrite IH.
Qed.

Lemma meaningful_elem p l : p ∈ meaningful l → p ∈ l.
Proof.
  induction l as [|q l IH]; simpl; [done|].
  destruct (nt_trust q =? 0); [by intros ?%elem_of_nil|].
  intros [->|H]%elem_of_cons; [left | right; auto].
Qed.

Lemma processed_snapshot tbl :
  (length tbl ≤ MAX_NEIGHBORS)%nat →
  processed (broadcast_snapshot tbl) = meaningful (trust_record <$> tbl).
Proof.
  intros H. unfold processed. rewrite broadcast_snapshot_eq by done.
  rewrite take_ge, meaningful_padding; [done|].
  rewrite length_app, length_fmap, length_replicate. lia.
Qed.

Lemma addr_unique_inj tbl e e' :
  NoDup (addrs tbl) → e ∈ tbl → e' ∈ tbl → addr e = addr e' → e = e'.
Proof.
  unfold addrs. induction tbl as [|x tbl IH]; csimpl; intros Hnd He He' Ha.
  - by apply elem_of_nil in He.
  - apply NoDup_cons in Hnd as [Hx Hnd].
    apply elem_of_cons in He as [->|He]; apply elem_of_cons in He' as [->|He'].
    + done.
    + exfalso. apply Hx. rewrite Ha. by apply list_elem_of_fmap_2.
    + exfalso. apply Hx. rewrite <- Ha. by apply list_elem_of_fmap_2.
    + by apply IH.
Qed.

Lemma merged_own_records tbl e ps :
  NoDup (addrs tbl) → e ∈ tbl → addr e ≠ sink_addr →
  (∀ p, p ∈ ps → ∃ e', e' ∈ tbl ∧ p = trust_record e') →
  foldl (merged_trust (addr e)) (trust e) ps = trust e.
Proof.
  intros Hnd He Hs. induction ps as [|p ps IH]; intros Hps; simpl; [done|].
  assert (E : merged_trust (addr e) (trust e) p = trust e).
  { unfold merged_trust. case_decide; [done|].
    case_decide as Hc; [|done]. destruct Hc as [Ha Ht].
    destruct (Hps p) as (e' & He' & ->); [left|]. simpl in *.
    assert (e' = e) as -> by by apply (addr_unique_inj tbl).
    done. }
  rewrite E. apply IH. intros q Hq. apply Hps. by right.
Qed.

Lemma merged_sink a cur ps :
  a = sink_addr →
  foldl (merged_trust a) cur ps = match ps with [] => cur | _ => 100 end.
Proof.
  intros ->.
  assert (H100 : ∀ l, foldl (merged_trust sink_addr) 100 l = 100).
  { induction l as [|q l IH]; simpl; [done|].
    unfold merged_trust at 2. by case_decide. }
  destruct ps as [|p ps]; simpl; [done|].
  unfold merged_trust at 2. case_decide; [|done]. apply H100.
Qed.

Lemma merge_own_snapshot st :
  NoDup (addrs (neighbor_table st)) →
  (length (neighbor_table st) ≤ MAX_NEIGHBORS)%nat →
  Forall2 (λ e e', e' = e ∨ (addr e = sink_addr ∧ e' = set_trust e 100))
    (neighbor_table st)
    (neighbor_table (update_table (broadcast_snapshot (neighbor_table st)) st)).
Proof.
  intros Hnd Hlen.
  rewrite update_table_table, processed_snapshot by done.
  apply Forall2_fmap_r, Forall_Forall2_diag, Forall_forall.
  intros e He. unfold compose. cbv beta.
  destruct (decide (addr e = sink_addr)) as [Hs|Hs].
  - rewrite merged_sink by done.
    destruct (meaningful _); [left; apply set_trust_same | right; done].
  - left. rewrite (merged_own_records (neighbor_table st)); try done.
    + apply set_trust_same.
    + intros p Hp%meaningful_elem.
      apply list_elem_of_fmap in Hp as (e' & -> & He'). by exists e'.
Qed.

(** C8: for every table with unique addresses and at most 16 entries, and
    so in every state a run reaches, the snapshot broadcast_process sends is
    the table's (address, trust) records in iteration order followed by zero
    records up to 16, and merging it into the same table leaves every entry as
    it is, except that an entry for the sink may have its trust set to 100. *)
Theorem C8_merge_own_snapshot :
  (∀ st,
     NoDup (addrs (neighbor_table st)) →
     (length (neighbor_table st) ≤ MAX_NEIGHBORS)%nat →
     broadcast_snapshot (neighbor_table st)
     = (trust_record <$> neighbor_table st)
       ++ replicate (MAX_NEIGHBORS - length (neighbor_table st)) zero_trust
     ∧ Forall2 (λ e e', e' = e ∨ (addr e = sink_addr ∧ e' = set_trust e 100))
         (neighbor_table st)
         (neighbor_table
            (update_table (broadcast_snapshot (neighbor_table st)) st))
     ∧ neighbor_mem (update_table (broadcast_snapshot (neighbor_table st)) st)
       = neighbor_mem st)
  ∧ (∀ self evs,
       Forall2 (λ e e', e' = e ∨ (addr e = sink_addr ∧ e' = set_trust e 100))
         (neighbor_table (run self evs init_node))
         (neighbor_table
            (update_table
               (broadcast_snapshot (neighbor_table (run self evs init_node)))
               (run self evs init_node)))).
Proof.
  split.
  - intros st Hnd Hlen. split; [by apply broadcast_snapshot_eq|].
    split; [by apply merge_own_snapshot | apply update_table_mem].
  - intros self evs. apply merge_own_snapshot; [apply run_addr_unique|].
    destruct (run_pool_inv self evs) as [-> H]. done.
Qed.

Lemma C8_merge_own_snapshot_witness :
  Forall2 (λ e e', e' = e ∨ (addr e = sink_addr ∧ e' = set_trust e 100))
    [entry (node_addr 2) 80 0; entry sink_addr 99 0; entry (node_addr 3) 60 0]
    (neighbor_table
       (update_table
          (broadcast_snapshot
             [entry (node_addr 2) 80 0; entry sink_addr 99 0;
              entry (node_addr 3) 60 0])
          (with_table
             [entry (node_addr 2) 80 0; entry sink_addr 99 0;
              entry (node_addr 3) 60 0]))).
Proof.
  destruct C8_merge_own_snapshot as [H _].
  apply (H (with_table
              [entry (node_addr 2) 80 0; entry sink_addr 99 0;
               entry (node_addr 3) 60 0])).
  - apply (bool_decide_unpack _). vm_compute. exact I.
  - vm_compute. lia.
Defined.

(** ** The sink's entry *)

Lemma update_table_sink_pinned nt st :
  sink_pinned (neighbor_table st) →
  sink_pinned (neighbor_table (update_table nt st)).
Proof.
  intros Hs. rewrite update_table_table. unfold sink_pinned.
  apply Forall_fmap. eapply Forall_impl; [exact Hs|].
  intros e He Ha. simpl in *. rewrite merged_sink by done.
  destruct (processed nt); auto.
Qed.

(* every handler but forward with the sink as previous hop keeps the sink's
   entry at 100 *)
Lemma handle_sink_pinned self st ev :
  (∀ now rand o d p h, ev = Forward now rand o d p h → p ≠ sink_addr) →
  sink_pinned (neighbor_table st) →
  sink_pinned (neighbor_table (handle self st ev)).
Proof.
  intros Hev Hs.
  destruct ev as [now from payload|now s p h|now rand o d p h|now k]; simpl.
  - rewrite broadcast_recv_table.
    destruct (broadcast_scan from (neighbor_table st)); [done|..].
    + by apply update_table_sink_pinned.
    + case_decide; apply update_table_sink_pinned; try done.
      simpl. apply Forall_app. split; [done|]. by apply Forall_singleton.
  - rewrite recv_table. destruct (addr_is_blocked s (neighbor_table st)); [done|].
    rewrite recv_loop_fmap. apply Forall_fmap.
    eapply Forall_impl; [exact Hs|]. intros e He. simpl.
    by destruct (linkaddr_cmp s (addr e)).
  - rewrite forward_table. destruct (negb _ && _); [done|].
    rewrite forward_loop_fmap. apply Forall_fmap.
    eapply Forall_impl; [exact Hs|]. intros e He. simpl.
    cmp_cases p (addr e); [|done].
    intros Ha. rewrite penalise_eq in Ha. simpl in Ha.
    exfalso. apply (Hev now rand o d p h); congruence.
  - rewrite remove_neighbor_table.
    destruct (neighbor_table st !! k) as [n|] eqn:Hk; [|done].
    destruct (negb _ && _); [|done].
    apply Forall_insert; [done|]. simpl.
    by apply (Forall_lookup_1 _ _ _ _ Hs Hk).
Qed.

(** C1: the forward handler lowers the trust of the sink's entry.  After a
    broadcast from the sink 1.0 the entry has trust 100; one forward event
    with the sink as previous hop one second later leaves it at 99, and
    after 51 such events the sink is blocked. *)
Theorem C1_forward_penalises_sink :
  neighbor_table (run (node_addr 2) (sink_forwards 0) init_node)
  = [entry sink_addr 100 0]
  ∧ neighbor_table (run (node_addr 2) (sink_forwards 1) init_node)
    = [{| addr := sink_addr; trust := 99; ctimer := 11; last_received := 1 |}]
  ∧ addr_is_blocked sink_addr
      (neighbor_table (run (node_addr 2) (sink_forwards 51) init_node))
    = true.
Proof. vm_compute. done. Qed.

(** * Further properties of the code *)

(** ** Discovery and the pool *)

Lemma merged_other_records a cur ps :
  a ≠ sink_addr → Forall (λ p, nt_addr p ≠ a) ps →
  foldl (merged_trust a) cur ps = cur.
Proof.
  intros Ha Hps. induction Hps as [|p ps Hp Hps IH]; simpl; [done|].
  unfold merged_trust at 2. repeat case_decide; try done. tauto.
Qed.

(** X1: a broadcast from an address without an entry, while the pool has a
    free block, appends one entry for the sender and takes one block; the
    vector is then merged into the table that already holds the new entry.
    When the sender is the sink or no processed record names the sender, the
    new entry has trust 100, last_received now and a timer set to
    now + NEIGHBOR_TIMEOUT. *)
Theorem X1_broadcast_discovers_sender now from payload st :
  from ∉ addrs (neighbor_table st) →
  (neighbor_mem st < MAX_NEIGHBORS)%nat →
  addrs (neighbor_table (broadcast_recv now from payload st))
  = addrs (neighbor_table st) ++ [from]
  ∧ neighbor_mem (broadcast_recv now from payload st) = S (neighbor_mem st)
  ∧ neighbor_table (broadcast_recv now from payload st)
    = (λ e, set_trust e
              (foldl (merged_trust (addr e)) (trust e)
                 (processed (packetbuf_copyto payload))))
        <$> (neighbor_table st ++ [new_neighbor now from])
  ∧ (from = sink_addr
     ∨ Forall (λ p, nt_addr p ≠ from) (processed (packetbuf_copyto payload)) →
     neighbor_table (broadcast_recv now from payload st)
       !! length (neighbor_table st)
     = Some {| addr := from; trust := 100; ctimer := now + 10;
               last_received := now |}).
Proof.
  intros Hfresh Hfree.
  apply broadcast_scan_unknown in Hfresh.
  assert (Ht : neighbor_table (broadcast_recv now from payload st)
               = (λ e, set_trust e
                         (foldl (merged_trust (addr e)) (trust e)
                            (processed (packetbuf_copyto payload))))
                   <$> (neighbor_table st ++ [new_neighbor now from])).
  { rewrite broadcast_recv_table, Hfresh. case_decide; [|done].
    by rewrite update_table_table. }
  split; [|split; [|split; [exact Ht|]]].
  - rewrite broadcast_recv_addrs, Hfresh. by case_decide.
  - rewrite broadcast_recv_mem, Hfresh. by case_decide.
  - intros Hcase. rewrite Ht, list_lookup_fmap.
    rewrite (list_lookup_middle _ [] _ _ eq_refl). simpl. f_equal.
    assert (E : foldl (merged_trust from) 100
                  (processed (packetbuf_copyto payload)) = 100).
    { destruct (decide (from = sink_addr)) as [Hs|Hs].
      - rewrite merged_sink by done. by destruct (processed _).
      - destruct Hcase as [?|Hno]; [done|]. by apply merged_other_records. }
    unfold set_trust. simpl. by rewrite E.
Qed.

Lemma X1_broadcast_discovers_sender_witness :
  neighbor_table
    (broadcast_recv 3 (node_addr 2)
       [{| nt_addr := node_addr 7; nt_trust := 60 |}] init_node) !! 0%nat
  = Some {| addr := node_addr 2; trust := 100; ctimer := 13;
            last_received := 3 |}.
Proof.
  apply (X1_broadcast_discovers_sender 3 (node_addr 2)
           [{| nt_addr := node_addr 7; nt_trust := 60 |}] init_node).
  - apply (bool_decide_unpack _). vm_compute. exact I.
  - vm_compute. lia.
  - right. apply (bool_decide_unpack _). vm_compute. exact I.
Defined.

(** X2: once the table holds MAX_NEIGHBORS = 16 entries its membership is
    frozen: in a state a run has reached with 16 entries, no event changes
    the list of addresses or the pool; a broadcast from a new sender is still
    merged, but the sender gets no entry. *)
Theorem X2_full_table_is_frozen self evs ev :
  length (neighbor_table (run self evs init_node)) = MAX_NEIGHBORS →
  addrs (neighbor_table (handle self (run self evs init_node) ev))
  = addrs (neighbor_table (run self evs init_node))
  ∧ neighbor_mem (handle self (run self evs init_node) ev)
    = neighbor_mem (run self evs init_node)
  ∧ (∀ now from payload,
       ev = Broadcast now from payload →
       from ∉ addrs (neighbor_table (run self evs init_node)) →
       neighbor_table (handle self (run self evs init_node) ev)
       = neighbor_table
           (update_table (packetbuf_copyto payload) (run self evs init_node))).
Proof.
  intros Hfull. destruct (run_pool_inv self evs) as [Hlen Hcap].
  remember (run self evs init_node) as st eqn:Est. clear Est.
  assert (Hmax : ¬ (neighbor_mem st < MAX_NEIGHBORS)%nat) by lia.
  destruct (handle_addrs self st ev) as (new & Ha & Hnew & Hmem).
  destruct Hnew as [->|(a & _ & _ & _ & Hlt)]; [|done].
  rewrite Ha, app_nil_r. split; [done|]. split; [by apply Hmem|].
  intros now from payload -> Hfresh.
  change (handle self st (Broadcast now from payload))
    with (broadcast_recv now from payload st).
  rewrite broadcast_recv_table.
  apply broadcast_scan_unknown in Hfresh. rewrite Hfresh.
  case_decide as Hd; [exact (False_ind _ (Hmax Hd)) | reflexivity].
Qed.

Lemma X2_full_table_is_frozen_witness :
  addrs (neighbor_table
           (handle (node_addr 1) (run (node_addr 1) sixteen_senders init_node)
              (Broadcast 5 (node_addr 99) [])))
  = addrs (neighbor_table (run (node_addr 1) sixteen_senders init_node)).
Proof.
  apply (X2_full_table_is_frozen (node_addr 1) sixteen_senders
           (Broadcast 5 (node_addr 99) [])).
  vm_compute. reflexivity.
Defined.

(** X3: in every state a run reaches from the initial state the addresses
    of the table are pairwise distinct and the number of blocks taken from
    the pool is the number of entries of the list. *)
Theorem X3_run_keeps_addresses_unique self evs :
  NoDup (addr <$> neighbor_table (run self evs init_node))
  ∧ neighbor_mem (run self evs init_node)
    = length (neighbor_table (run self evs init_node)).
Proof.
  split; [apply run_addr_unique|].
  by destruct (run_pool_inv self evs) as [-> _].
Qed.

(** ** What the handlers leave alone *)

Lemma Forall2_fmap_self {A} (R : A → A → Prop) (f : A → A) (l : list A) :
  (∀ x, R x (f x)) → Forall2 R l (f <$> l).
Proof.
  intros H. induction l as [|x l IH]; csimpl; constructor; auto.
Qed.

(** X4: the unicast handler never changes an address, a trust value or a
    last_received stamp, and leaves the pool alone.  From a blocked sender it
    changes no entry at all; otherwise the entries with the sender's address
    get their timer set to now + NEIGHBOR_TIMEOUT and every other entry keeps
    its timer. *)
Theorem X4_recv_only_rearms now sender prevhop hops st :
  neighbor_mem (recv now sender prevhop hops st) = neighbor_mem st
  ∧ Forall2
      (λ e e',
         addr e' = addr e ∧ trust e' = trust e
         ∧ last_received e' = last_received e
         ∧ ctimer e'
           = if decide (addr e = sender
                        ∧ addr_is_blocked sender (neighbor_table st) = false)
             then now + 10 else ctimer e)
      (neighbor_table st) (neighbor_table (recv now sender prevhop hops st)).
Proof.
  split; [apply recv_mem|]. rewrite recv_table.
  destruct (addr_is_blocked sender (neighbor_table st)) eqn:Hb.
  - apply Forall_Forall2_diag, Forall_forall. intros e _.
    case_decide as Hc; [destruct Hc; done|done].
  - rewrite recv_loop_fmap. apply Forall2_fmap_self. intros e.
    cmp_cases sender (addr e); case_decide as Hc; try done.
    + exfalso. apply Hc. by split.
    + destruct Hc. congruence.
Qed.

Lemma broadcast_recv_keeps_stamps now from payload st :
  Forall2
    (λ e e',
       addr e' = addr e ∧ ctimer e' = ctimer e
       ∧ last_received e' = last_received e)
    (neighbor_table st)
    (take (length (neighbor_table st))
       (neighbor_table (broadcast_recv now from payload st))).
Proof.
  rewrite broadcast_recv_table.
  assert (Hsame : ∀ ps tbl,
            Forall2
              (λ e e', addr e' = addr e ∧ ctimer e' = ctimer e
                       ∧ last_received e' = last_received e)
              tbl
              ((λ e, set_trust e (foldl (merged_trust (addr e)) (trust e) ps))
                 <$> tbl)).
  { intros ps tbl. by apply Forall2_fmap_self. }
  destruct (broadcast_scan from (neighbor_table st)).
  - rewrite firstn_all. by apply Forall_Forall2_diag, Forall_forall.
  - rewrite update_table_table, <- (length_fmap
      (λ e, set_trust e (foldl (merged_trust (addr e)) (trust e)
                           (processed (packetbuf_copyto payload))))),
      firstn_all.
    apply Hsame.
  - case_decide; rewrite update_table_table.
    + simpl neighbor_table. rewrite fmap_app, take_app_length'
        by (by rewrite length_fmap).
      apply Hsame.
    + rewrite <- (length_fmap
        (λ e, set_trust e (foldl (merged_trust (addr e)) (trust e)
                             (processed (packetbuf_copyto payload))))),
        firstn_all.
      apply Hsame.
Qed.

(** X5: the broadcast handler never changes the address, the timer or the
    last_received stamp of an entry the table already holds, whoever the
    sender is and whatever the vector carries: gossip from a known sender
    does not rearm its timer. *)
Theorem X5_broadcast_keeps_timers now from payload st :
  Forall2
    (λ e e',
       addr e' = addr e ∧ ctimer e' = ctimer e
       ∧ last_received e' = last_received e)
    (neighbor_table st)
    (take (length (neighbor_table st))
       (neighbor_table (broadcast_recv now from payload st))).
Proof. apply broadcast_recv_keeps_stamps. Qed.

(** ** The sink's entry without forward events from the sink *)

(** X6: in every state reached by a run in which no forward event has the
    sink as previous hop, an entry for the sink has trust 100, and the sink
    is not blocked. *)
Theorem X6_sink_pinned_without_sink_forwards self evs :
  Forall (λ ev, ¬ forward_from_sink ev) evs →
  sink_pinned (neighbor_table (run self evs init_node))
  ∧ addr_is_blocked sink_addr (neighbor_table (run self evs init_node)) = false.
Proof.
  intros Hevs.
  assert (Hp : sink_pinned (neighbor_table (run self evs init_node))).
  { induction evs as [|ev evs IH] using rev_ind; [constructor|].
    apply Forall_app in Hevs as [Hevs Hev]. apply Forall_inv in Hev.
    rewrite run_snoc. apply handle_sink_pinned; [|by apply IH].
    intros now rand o d p h -> Hs. by apply Hev. }
  split; [done|]. apply not_true_is_false. rewrite addr_is_blocked_true.
  intros (n & Hn & Ha & Ht).
  pose proof (proj1 (Forall_forall _ _) Hp n Hn Ha) as H100.
  unfold MAT in Ht. lia.
Qed.

Lemma X6_sink_pinned_witness :
  addr_is_blocked sink_addr
    (neighbor_table
       (run (node_addr 2)
          [Broadcast 0 sink_addr [];
           Forward 1 0 (node_addr 3) sink_addr (node_addr 3) 1;
           Broadcast 2 (node_addr 3)
             [{| nt_addr := sink_addr; nt_trust := 7 |}]]
          init_node))
  = false.
Proof.
  apply (X6_sink_pinned_without_sink_forwards (node_addr 2)).
  repeat constructor; simpl; try tauto; discriminate.
Defined.

(** ** Events other than broadcasts *)

Lemma handle_local_trust self st ev :
  is_broadcast ev = false →
  Forall2
    (λ e e',
       addr e' = addr e
       ∧ (trust e' = trust e
          ∨ (49 < trust e ∧ trust e' = int_mul_0_99 (trust e))))
    (neighbor_table st) (neighbor_table (handle self st ev)).
Proof.
  intros Hev.
  assert (Hid : Forall2
            (λ e e', addr e' = addr e
                     ∧ (trust e' = trust e
                        ∨ (49 < trust e ∧ trust e' = int_mul_0_99 (trust e))))
            (neighbor_table st) (neighbor_table st)).
  { apply Forall_Forall2_diag, Forall_forall. intros e _. auto. }
  destruct ev as [now from payload|now s p h|now rand o d p h|now k];
    [done|..]; simpl.
  - rewrite recv_table. destruct (addr_is_blocked s (neighbor_table st)); [done|].
    rewrite recv_loop_fmap. apply Forall2_fmap_self. intros e.
    destruct (linkaddr_cmp s (addr e)); auto.
  - rewrite forward_table. destruct (negb _ && _); [done|].
    rewrite forward_loop_fmap. apply Forall2_fmap_self. intros e.
    destruct (linkaddr_cmp p (addr e)); [|auto].
    rewrite penalise_eq. simpl. split; [done|].
    destruct (ulong_sub now (last_received e) <? MINIMUM_DELAY); simpl; [|auto].
    destruct (Z.ltb_spec 49 (trust e)); auto.
  - rewrite remove_neighbor_table.
    destruct (neighbor_table st !! k) as [n|] eqn:Hk; [|done].
    destruct (negb _ && _); [|done].
    rewrite <- (list_insert_id _ _ _ Hk) at 1.
    apply Forall2_insert; [done|]. auto.
Qed.

Lemma blocked_preserved a tbl tbl' :
  Forall2
    (λ e e',
       addr e' = addr e
       ∧ (trust e' = trust e
          ∨ (49 < trust e ∧ trust e' = int_mul_0_99 (trust e))))
    tbl tbl' →
  addr_is_blocked a tbl = true → addr_is_blocked a tbl' = true.
Proof.
  intros HR. rewrite !addr_is_blocked_true. intros (n & Hn & Ha & Ht).
  apply list_elem_of_lookup in Hn as [k Hk].
  destruct (Forall2_lookup_l _ _ _ _ _ HR Hk) as (n' & Hk' & Ha' & Ht').
  exists n'. split; [by eapply list_elem_of_lookup_2|].
  split; [congruence|]. unfold MAT in *. lia.
Qed.

(** X7: the unicast handler, the forward handler and the expiry callback
    change a trust value only by the rapid-forward penalty, which applies to
    a trust above 49 only; so they never raise a trust inside 0..100 and never
    change a trust below 50, and an address that is blocked stays blocked for
    as long as no broadcast is received. *)
Theorem X7_only_gossip_unblocks self evs st :
  Forall (λ ev, is_broadcast ev = false) evs →
  Forall2
    (λ e e',
       addr e' = addr e
       ∧ (trust e < 50 → trust e' = trust e)
       ∧ (0 ≤ trust e ≤ 100 → 0 ≤ trust e' ≤ trust e))
    (neighbor_table st) (neighbor_table (run self evs st))
  ∧ (∀ a, addr_is_blocked a (neighbor_table st) = true →
          addr_is_blocked a (neighbor_table (run self evs st)) = true).
Proof.
  intros Hevs. induction evs as [|ev evs IH] using rev_ind.
  - split; [|done]. apply Forall_Forall2_diag, Forall_forall.
    intros e _. split; [done|]. split; [done|lia].
  - apply Forall_app in Hevs as [Hevs Hev]. apply Forall_inv in Hev.
    destruct (IH Hevs) as [IH1 IH2]. rewrite run_snoc.
    pose proof (handle_local_trust self (run self evs st) ev Hev) as Hstep.
    split.
    + apply Forall2_same_length_lookup. split.
      * rewrite (Forall2_length _ _ _ IH1). apply (Forall2_length _ _ _ Hstep).
      * intros k e e'' Hk Hk''.
        destruct (Forall2_lookup_l _ _ _ _ _ IH1 Hk) as (e' & Hk' & Ha & Hlow & Hrng).
        destruct (Forall2_lookup_l _ _ _ _ _ Hstep Hk') as (e2 & Hk2 & Ha2 & Ht2).
        assert (e2 = e'') as -> by congruence.
        split; [congruence|]. split.
        -- intros Hb. specialize (Hlow Hb). destruct Ht2 as [->|[H49 _]]; lia.
        -- intros Hr. specialize (Hrng Hr).
           destruct Ht2 as [->|[H49 ->]]; [lia|].
           pose proof (int_mul_0_99_bounds (trust e') ltac:(lia)). lia.
    + intros a Hb. eapply blocked_preserved; [exact Hstep|]. by apply IH2.
Qed.

Lemma X7_only_gossip_unblocks_witness :
  addr_is_blocked (node_addr 5)
    (neighbor_table
       (run (node_addr 2)
          [Unicast 3 (node_addr 5) (node_addr 5) 1;
           Forward 4 0 (node_addr 5) sink_addr (node_addr 5) 1;
           Expiry 20 0]
          blocked_5))
  = true.
Proof.
  apply (X7_only_gossip_unblocks (node_addr 2)
           [Unicast 3 (node_addr 5) (node_addr 5) 1;
            Forward 4 0 (node_addr 5) sink_addr (node_addr 5) 1;
            Expiry 20 0]
           blocked_5).
  - repeat constructor.
  - reflexivity.
Defined.

(** ** Timers and timestamps under a clock that does not run backwards *)

Lemma handle_stamps self st ev t :
  t ≤ event_time ev → stamps_inv t (neighbor_table st) →
  stamps_inv (event_time ev) (neighbor_table (handle self st ev)).
Proof.
  intros Ht Hinv. unfold stamps_inv, NEIGHBOR_TIMEOUT in *.
  assert (Hold : Forall
            (λ e, last_received e ≤ event_time ev
                  ∧ ctimer e ≤ event_time ev + 10
                  ∧ last_received e + 10 ≤ ctimer e) (neighbor_table st)).
  { eapply Forall_impl; [exact Hinv|]. intros e He. simpl in He. lia. }
  assert (Hmerge : ∀ ps tbl,
            Forall (λ e, last_received e ≤ event_time ev
                         ∧ ctimer e ≤ event_time ev + 10
                         ∧ last_received e + 10 ≤ ctimer e) tbl →
            Forall (λ e, last_received e ≤ event_time ev
                         ∧ ctimer e ≤ event_time ev + 10
                         ∧ last_received e + 10 ≤ ctimer e)
              ((λ e, set_trust e (foldl (merged_trust (addr e)) (trust e) ps))
                 <$> tbl)).
  { intros ps tbl Htbl. apply Forall_fmap.
    eapply Forall_impl; [exact Htbl|]. intros e He. exact He. }
  destruct ev as [now from payload|now s p h|now rand o d p h|now k];
    simpl in *.
  - rewrite broadcast_recv_table.
    destruct (broadcast_scan from (neighbor_table st)); [done|..].
    + rewrite update_table_table. by apply Hmerge.
    + case_decide; rewrite update_table_table; apply Hmerge; [|done].
      simpl. apply Forall_app. split; [done|].
      apply Forall_singleton. simpl. unfold NEIGHBOR_TIMEOUT. lia.
  - rewrite recv_table. destruct (addr_is_blocked s (neighbor_table st)); [done|].
    rewrite recv_loop_fmap. apply Forall_fmap.
    eapply Forall_impl; [exact Hold|]. intros e He. simpl in *.
    destruct (linkaddr_cmp s (addr e)); [|done].
    simpl. unfold NEIGHBOR_TIMEOUT. lia.
  - rewrite forward_table. destruct (negb _ && _); [done|].
    rewrite forward_loop_fmap. apply Forall_fmap.
    eapply Forall_impl; [exact Hold|]. intros e He. simpl in *.
    destruct (linkaddr_cmp p (addr e)); [|done].
    rewrite penalise_eq. simpl. unfold NEIGHBOR_TIMEOUT. lia.
  - rewrite remove_neighbor_table.
    destruct (neighbor_table st !! k) as [n|] eqn:Hk; [|done].
    destruct (negb _ && _); [|done].
    apply Forall_insert; [done|]. simpl.
    pose proof (Forall_lookup_1 _ _ _ _ Hold Hk) as Hn. simpl in Hn.
    unfold NEIGHBOR_TIMEOUT. lia.
Qed.

Lemma handle_stamps_grow self st ev t :
  t ≤ event_time ev → stamps_inv t (neighbor_table st) →
  Forall2
    (λ e e', last_received e ≤ last_received e' ∧ ctimer e ≤ ctimer e')
    (neighbor_table st)
    (take (length (neighbor_table st)) (neighbor_table (handle self st ev))).
Proof.
  intros Ht Hinv. unfold stamps_inv, NEIGHBOR_TIMEOUT in *.
  assert (Hgrow : ∀ f : neighbor → neighbor,
            (∀ e, last_received e ≤ t ∧ ctimer e ≤ t + 10
                  ∧ last_received e + 10 ≤ ctimer e →
                  last_received e ≤ last_received (f e)
                  ∧ ctimer e ≤ ctimer (f e)) →
            Forall2
              (λ e e', last_received e ≤ last_received e'
                       ∧ ctimer e ≤ ctimer e')
              (neighbor_table st) (f <$> neighbor_table st)).
  { intros f Hf. apply Forall2_fmap_r, Forall_Forall2_diag.
    eapply Forall_impl; [exact Hinv|]. intros e He. by apply Hf. }
  destruct ev as [now from payload|now s p h|now rand o d p h|now k];
    simpl in *.
  - pose proof (broadcast_recv_keeps_stamps now from payload st) as H5.
    eapply Forall2_impl; [exact H5|]. intros e e' (_ & -> & ->). lia.
  - rewrite recv_table.
    destruct (addr_is_blocked s (neighbor_table st)).
    + rewrite firstn_all. apply Forall_Forall2_diag, Forall_forall.
      intros e _. lia.
    + rewrite recv_loop_fmap.
      rewrite <- (length_fmap (λ e, if linkaddr_cmp s (addr e)
                                     then ctimer_set now NEIGHBOR_TIMEOUT e
                                     else e)), firstn_all.
      apply Hgrow. intros e He. destruct (linkaddr_cmp s (addr e)); [|lia].
      simpl. unfold NEIGHBOR_TIMEOUT. lia.
  - rewrite forward_table. destruct (negb _ && _).
    + rewrite firstn_all. apply Forall_Forall2_diag, Forall_forall.
      intros e _. lia.
    + rewrite forward_loop_fmap.
      rewrite <- (length_fmap (λ n, if linkaddr_cmp p (addr n)
                                     then penalise now n else n)), firstn_all.
      apply Hgrow. intros e He. destruct (linkaddr_cmp p (addr e)); [|lia].
      rewrite penalise_eq. simpl. unfold NEIGHBOR_TIMEOUT. lia.
  - rewrite remove_neighbor_table.
    destruct (neighbor_table st !! k) as [n|] eqn:Hk;
      [|rewrite firstn_all; apply Forall_Forall2_diag, Forall_forall;
        intros e _; lia].
    destruct (negb _ && _);
      [|rewrite firstn_all; apply Forall_Forall2_diag, Forall_forall;
        intros e _; lia].
    rewrite <- (length_insert (neighbor_table st) k
                  (ctimer_set now NEIGHBOR_TIMEOUT n)), firstn_all.
    rewrite <- (list_insert_id _ _ _ Hk) at 1.
    apply Forall2_insert.
    + apply Forall_Forall2_diag, Forall_forall. intros e _. lia.
    + pose proof (Forall_lookup_1 _ _ _ _ Hinv Hk) as Hn. simpl in *.
      unfold NEIGHBOR_TIMEOUT. lia.
Qed.

Lemma run_stamps self evs st t :
  chronological t evs → stamps_inv t (neighbor_table st) →
  stamps_inv (end_time t evs) (neighbor_table (run self evs st)).
Proof.
  revert st t. induction evs as [|ev evs IH]; intros st t Hc Hinv; [done|].
  destruct Hc as [Ht Hc]. apply (IH (handle self st ev) (event_time ev) Hc).
  by apply (handle_stamps self st ev t).
Qed.

(** X8: when the events of a run come in clock order, then in the state it
    reaches every entry was last heard no later than the last event, every
    timer expires no later than NEIGHBOR_TIMEOUT = 10 seconds after the last
    event and no earlier than 10 seconds after the entry was last heard; and
    a further event at that clock value or later moves no last_received stamp
    and no timer of an entry backwards. *)
Theorem X8_stamps_follow_the_clock self evs :
  chronological 0 evs →
  Forall
    (λ e, last_received e ≤ end_time 0 evs
          ∧ ctimer e ≤ end_time 0 evs + 10
          ∧ last_received e + 10 ≤ ctimer e)
    (neighbor_table (run self evs init_node))
  ∧ (∀ ev,
       end_time 0 evs ≤ event_time ev →
       Forall2
         (λ e e', last_received e ≤ last_received e' ∧ ctimer e ≤ ctimer e')
         (neighbor_table (run self evs init_node))
         (take (length (neighbor_table (run self evs init_node)))
            (neighbor_table (handle self (run self evs init_node) ev)))).
Proof.
  intros Hc.
  assert (Hinv : stamps_inv (end_time 0 evs)
                   (neighbor_table (run self evs init_node))).
  { apply run_stamps; [done|constructor]. }
  split; [exact Hinv|].
  intros ev Hev. by apply (handle_stamps_grow self _ ev (end_time 0 evs)).
Qed.

Lemma X8_stamps_follow_the_clock_witness :
  Forall
    (λ e, last_received e ≤ 9 ∧ ctimer e ≤ 9 + 10
          ∧ last_received e + 10 ≤ ctimer e)
    (neighbor_table
       (run (node_addr 2)
          [Broadcast 1 (node_addr 3) [];
           Forward 4 0 (node_addr 3) sink_addr (node_addr 3) 1;
           Unicast 9 (node_addr 3) (node_addr 3) 1]
          init_node)).
Proof.
  apply (X8_stamps_follow_the_clock (node_addr 2)
           [Broadcast 1 (node_addr 3) [];
            Forward 4 0 (node_addr 3) sink_addr (node_addr 3) 1;
            Unicast 9 (node_addr 3) (node_addr 3) 1]).
  simpl. lia.
Defined.

(** ** Counting rapid forwards *)

Lemma int_mul_0_99_pred x : 1 ≤ x ≤ 100 → int_mul_0_99 x = x - 1.
Proof.
  intros H. rewrite int_mul_0_99_exact by lia.
  symmetry. apply (Z.div_unique _ _ _ (100 - x)); lia.
Qed.

Lemma unique_entry_not_blocked tbl k n :
  NoDup (addrs tbl) → tbl !! k = Some n → 50 ≤ trust n →
  addr_is_blocked (addr n) tbl = false.
Proof.
  intros Hnd Hk Ht. apply not_true_is_false. rewrite addr_is_blocked_true.
  intros (m & Hm & Ha & Hlt).
  assert (m = n) as ->.
  { apply (addr_unique_inj tbl); [done|done| |done].
    by eapply list_elem_of_lookup_2. }
  unfold MAT in Hlt. lia.
Qed.

(** X9: each forward event that follows the previous one from the same
    neighbour by less than MINIMUM_DELAY = 5 seconds lowers that neighbour's
    trust by exactly one while the trust is between 50 and 100.  In a table
    with unique addresses, after [length ticks] such events the entry has
    trust [trust n - length ticks] and last_received at the last of them, and
    after [trust n - 49] of them the neighbour is blocked. *)
Theorem X9_rapid_forwards_count_down self p ticks st k n :
  NoDup (addrs (neighbor_table st)) →
  neighbor_table st !! k = Some n → addr n = p →
  trust n ≤ 100 → Z.of_nat (length ticks) ≤ trust n - 49 →
  rapid (last_received n) ticks → 0 ≤ last_received n →
  ∃ n',
    neighbor_table (run self (forwards_from p ticks) st) !! k = Some n'
    ∧ addr n' = p
    ∧ trust n' = trust n - Z.of_nat (length ticks)
    ∧ last_received n'
      = foldl (λ (_ : Z) (tick : Z * Z), tick.1) (last_received n) ticks
    ∧ (Z.of_nat (length ticks) = trust n - 49 →
       addr_is_blocked p
         (neighbor_table (run self (forwards_from p ticks) st)) = true).
Proof.
  revert st n. induction ticks as [|[now rand] ticks IH];
    intros st n Hnd Hk Ha Hmax Hlen Hrapid Hlast.
  - exists n. simpl in *. split; [done|]. split; [done|].
    split; [lia|]. split; [done|].
    intros H49. apply addr_is_blocked_true. exists n.
    split; [by eapply list_elem_of_lookup_2|]. unfold MAT. split; [done|lia].
  - simpl in Hlen, Hrapid. destruct Hrapid as (Hle & Hgap & Hul & Hrapid).
    simpl in Hle, Hgap, Hul.
    assert (Hnd' : ¬ dropped self p (neighbor_table st)).
    { intros [_ Hb]. rewrite <- Ha in Hb.
      rewrite (unique_entry_not_blocked _ k n) in Hb by (done || lia).
      discriminate Hb. }
    change (run self (forwards_from p ((now, rand) :: ticks)) st)
      with (run self (forwards_from p ticks)
              (forward self now rand p sink_addr p 0 st).2).
    pose proof (forward_table_kept self now rand p sink_addr p 0 st Hnd') as Ht.
    assert (Hk' : neighbor_table (forward self now rand p sink_addr p 0 st).2
                    !! k
                  = Some {| addr := addr n; trust := trust n - 1;
                            ctimer := now + NEIGHBOR_TIMEOUT;
                            last_received := now |}).
    { rewrite Ht, list_lookup_fmap, Hk. simpl.
      rewrite <- Ha, linkaddr_cmp_refl, penalise_spec by lia.
      case_decide as Hc; [|lia].
      by rewrite int_mul_0_99_pred by lia. }
    assert (Hnd1 : NoDup (addrs (neighbor_table
                                   (forward self now rand p sink_addr p 0 st).2))).
    { by rewrite Ht, <- forward_loop_fmap, forward_loop_addrs. }
    destruct (IH (forward self now rand p sink_addr p 0 st).2 _ Hnd1 Hk')
      as (n' & Hn' & Ha' & Htr & Hlr & Hb); simpl; try lia; try done.
    exists n'. split; [done|]. split; [done|]. split; [simpl in *; lia|].
    split; [done|]. intros H49. apply Hb. simpl. lia.
Qed.

Lemma X9_rapid_forwards_witness :
  ∃ n',
    neighbor_table
      (run (node_addr 2) (forwards_from (node_addr 4) [(1, 0); (3, 0); (6, 0)])
         (with_table [entry (node_addr 4) 52 0])) !! 0%nat = Some n'
    ∧ addr n' = node_addr 4
    ∧ trust n' = 52 - 3
    ∧ last_received n' = 6
    ∧ (3 = 52 - 49 →
       addr_is_blocked (node_addr 4)
         (neighbor_table
            (run (node_addr 2)
               (forwards_from (node_addr 4) [(1, 0); (3, 0); (6, 0)])
               (with_table [entry (node_addr 4) 52 0]))) = true).
Proof.
  apply (X9_rapid_forwards_count_down (node_addr 2) (node_addr 4)
           [(1, 0); (3, 0); (6, 0)] (with_table [entry (node_addr 4) 52 0])
           0%nat (entry (node_addr 4) 52 0)).
  - apply (bool_decide_unpack _). vm_compute. exact I.
  - reflexivity.
  - reflexivity.
  - simpl. lia.
  - simpl. lia.
  - vm_compute. repeat split; discriminate.
  - simpl. lia.
Defined.

(** ** What a merge reads and what it prints *)

Lemma update_rows_fold todo i nt st :
  update_rows todo i nt st
  = foldl merge_row st (meaningful (take todo (drop i nt))).
Proof.
  revert i st. induction todo as [|todo IH]; intros i st; simpl; [done|].
  unfold nt_at. destruct (nt !! i) as [p|] eqn:Hp; simpl.
  - rewrite (drop_S _ _ _ Hp). simpl.
    destruct (nt_trust p =? 0); [done|]. by rewrite IH.
  - rewrite drop_ge by (by apply lookup_ge_None). done.
Qed.

Lemma meaningful_idem l : meaningful (meaningful l) = meaningful l.
Proof.
  induction l as [|p l IH]; simpl; [done|].
  destruct (nt_trust p =? 0) eqn:E; simpl; [done|]. by rewrite E, IH.
Qed.

Lemma meaningful_length l : (length (meaningful l) ≤ length l)%nat.
Proof.
  induction l as [|p l IH]; simpl; [done|].
  destruct (nt_trust p =? 0); simpl; lia.
Qed.

Lemma processed_idem nt : processed (processed nt) = processed nt.
Proof.
  unfold processed. rewrite take_ge, meaningful_idem; [done|].
  etrans; [apply meaningful_length|]. rewrite length_take. lia.
Qed.

Lemma update_table_fold nt st :
  update_table nt st
  = printf LogNewline
      (print_own
         (neighbor_table
            (foldl merge_row (printf LogReceivedTrusts st) (processed nt)))
         (printf LogOwnTrusts
            (foldl merge_row (printf LogReceivedTrusts st) (processed nt)))).
Proof. unfold update_table. cbv zeta. by rewrite update_rows_fold, drop_0. Qed.

Lemma merge_rows_console ps st :
  console (foldl merge_row st ps)
  = console st ++ ((λ p, LogPair (nt_addr p) (nt_trust p)) <$> ps).
Proof.
  revert st. induction ps as [|p ps IH]; intros st; simpl.
  - by rewrite app_nil_r.
  - rewrite IH. simpl. by rewrite <- app_assoc.
Qed.

Lemma print_own_console tbl st :
  console (print_own tbl st)
  = console st ++ ((λ e, LogOwn (addr e) (trust e)) <$> tbl).
Proof.
  revert st. induction tbl as [|e tbl IH]; intros st; simpl.
  - by rewrite app_nil_r.
  - rewrite IH. simpl. by rewrite <- app_assoc.
Qed.

(** X10: a merge depends on the vector through its processed records only:
    the records behind the first one with trust 0, and those past the
    sixteenth, influence neither the table nor the pool nor the console.  A
    vector whose first record has trust 0 leaves the table as it is, the
    sink's entry included. *)
Theorem X10_merge_reads_processed_records_only nt st :
  update_table nt st = update_table (processed nt) st
  ∧ (∀ a rest,
       neighbor_table
         (update_table ({| nt_addr := a; nt_trust := 0 |} :: rest) st)
       = neighbor_table st).
Proof.
  split.
  - by rewrite (update_table_fold nt), (update_table_fold (processed nt)),
      processed_idem.
  - intros a rest. rewrite update_table_table. simpl.
    rewrite <- (list_fmap_id (neighbor_table st)) at 2.
    apply fmap_ext_all. intros e. apply set_trust_same.
Qed.

(** X11: update_table prints, in this order, the header of the received
    trusts, one line per processed record, the header of the own trusts, one
    line per entry of the table with the trust the entry has after the merge,
    and a newline. *)
Theorem X11_merge_console nt st :
  console (update_table nt st)
  = console st
    ++ [LogReceivedTrusts]
    ++ ((λ p, LogPair (nt_addr p) (nt_trust p)) <$> processed nt)
    ++ [LogOwnTrusts]
    ++ ((λ e, LogOwn (addr e) (trust e))
          <$> neighbor_table (update_table nt st))
    ++ [LogNewline].
Proof.
  rewrite (update_table_fold nt st) at 1.
  assert (Et : neighbor_table (update_table nt st)
               = neighbor_table
                   (foldl merge_row (printf LogReceivedTrusts st)
                      (processed nt))).
  { rewrite (update_table_fold nt st).
    by rewrite printf_table, print_own_table, printf_table. }
  rewrite Et. simpl.
  rewrite print_own_console. simpl. rewrite merge_rows_console. simpl.
  by rewrite <- !app_assoc.
Qed.

(** ** Trust among nodes that send trusts between 0 and 100 *)

Lemma meaningful_nonzero l : Forall (λ p, nt_trust p ≠ 0) (meaningful l).
Proof.
  induction l as [|p l IH]; simpl; [constructor|].
  destruct (Z.eqb_spec (nt_trust p) 0); by constructor.
Qed.

Lemma meaningful_all l : Forall (λ p, nt_trust p ≠ 0) l → meaningful l = l.
Proof.
  induction 1 as [|p l Hp Hl IH]; simpl; [done|].
  destruct (Z.eqb_spec (nt_trust p) 0); [done|]. by rewrite IH.
Qed.

Lemma merged_trust_positive a cur p :
  1 ≤ cur ≤ 100 → 1 ≤ nt_trust p ≤ 100 → 1 ≤ merged_trust a cur p ≤ 100.
Proof.
  intros Hc Hp. unfold merged_trust. repeat case_decide; try lia.
  rewrite int_mean_floor by (destruct int_max_value as [_ ->]; lia).
  split; [apply Z.div_le_lower_bound; lia | apply Z.div_le_upper_bound; lia].
Qed.

Lemma merged_fold_positive a ps cur :
  Forall (λ p, 1 ≤ nt_trust p ≤ 100) ps → 1 ≤ cur ≤ 100 →
  1 ≤ foldl (merged_trust a) cur ps ≤ 100.
Proof.
  intros Hps. revert cur. induction Hps as [|p ps Hp Hps IH]; intros cur Hc.
  - done.
  - simpl. apply IH. by apply merged_trust_positive.
Qed.

Lemma update_table_trust_positive nt st :
  Forall (λ p, 0 ≤ nt_trust p ≤ 100) (processed nt) →
  trust_positive (neighbor_table st) →
  trust_positive (neighbor_table (update_table nt st)).
Proof.
  intros Hnt Ht. rewrite update_table_table. unfold trust_positive.
  apply Forall_fmap. eapply Forall_impl; [exact Ht|].
  intros e He. simpl.
  assert (Hps : Forall (λ p, 1 ≤ nt_trust p ≤ 100) (processed nt)).
  { pose proof (meaningful_nonzero (take MAX_NEIGHBORS nt)) as Hnz.
    fold (processed nt) in Hnz.
    apply Forall_forall. intros p Hp.
    pose proof (proj1 (Forall_forall _ _) Hnt p Hp).
    pose proof (proj1 (Forall_forall _ _) Hnz p Hp). simpl in *. lia. }
  by apply merged_fold_positive.
Qed.

Lemma handle_trust_positive self st ev :
  wire_in_range ev → trust_positive (neighbor_table st) →
  trust_positive (neighbor_table (handle self st ev)).
Proof.
  intros Hw Ht.
  destruct ev as [now from payload|now s p h|now rand o d p h|now k]; simpl in *.
  - rewrite broadcast_recv_table.
    assert (Hproc : Forall (λ p, 0 ≤ nt_trust p ≤ 100)
                      (processed (packetbuf_copyto payload))).
    { apply processed_copyto_Forall; [simpl; lia | done]. }
    destruct (broadcast_scan from (neighbor_table st)); [done|..].
    + by apply update_table_trust_positive.
    + case_decide; apply update_table_trust_positive; try done.
      simpl. apply Forall_app. split; [done|].
      apply Forall_singleton. simpl. lia.
  - rewrite recv_table. destruct (addr_is_blocked s (neighbor_table st)); [done|].
    rewrite recv_loop_fmap. apply Forall_fmap.
    eapply Forall_impl; [exact Ht|]. intros e He. simpl.
    by destruct (linkaddr_cmp s (addr e)).
  - rewrite forward_table. destruct (negb _ && _); [done|].
    rewrite forward_loop_fmap. apply Forall_fmap.
    eapply Forall_impl; [exact Ht|]. intros e He. simpl in *.
    destruct (linkaddr_cmp p (addr e)); [|done].
    rewrite penalise_eq. simpl.
    destruct (ulong_sub now (last_received e) <? MINIMUM_DELAY); simpl; [|done].
    destruct (Z.ltb_spec 49 (trust e)); [|done].
    rewrite int_mul_0_99_pred by lia. lia.
  - rewrite remove_neighbor_table.
    destruct (neighbor_table st !! k) as [n|] eqn:Hk; [|done].
    destruct (negb _ && _); [|done].
    apply Forall_insert; [done|]. simpl.
    by apply (Forall_lookup_1 _ _ _ _ Ht Hk).
Qed.

Lemma gossip_of_eq tbl :
  (length tbl ≤ MAX_NEIGHBORS)%nat →
  gossip_of tbl = meaningful (trust_record <$> tbl).
Proof.
  intros Hlen. unfold gossip_of, packetbuf_copyto.
  rewrite take_app_length'; [by apply processed_snapshot|].
  rewrite broadcast_snapshot_eq by done.
  rewrite length_app, length_fmap, length_replicate. lia.
Qed.

(** X12: in every state reached by a run in which every received trust
    field lies between 0 and 100, every trust of the table lies between 1 and
    100; so no entry has the trust 0 that ends a vector, and what a receiver
    decodes from the node's broadcast is the (address, trust) record of every
    entry of the table, in table order. *)
Theorem X12_ranged_wire_keeps_vector_whole self evs :
  Forall wire_in_range evs →
  trust_positive (neighbor_table (run self evs init_node))
  ∧ gossip_of (neighbor_table (run self evs init_node))
    = trust_record <$> neighbor_table (run self evs init_node).
Proof.
  intros Hw.
  assert (Hpos : trust_positive (neighbor_table (run self evs init_node))).
  { induction evs as [|ev evs IH] using rev_ind; [constructor|].
    apply Forall_app in Hw as [Hevs Hev]. apply Forall_inv in Hev.
    rewrite run_snoc. apply handle_trust_positive; [exact Hev | exact (IH Hevs)]. }
  split; [exact Hpos|].
  rewrite gossip_of_eq by (by destruct (run_pool_inv self evs) as [-> ?]).
  apply meaningful_all, Forall_fmap.
  eapply Forall_impl; [exact Hpos|]. intros e He. simpl in *. lia.
Qed.

Lemma X12_ranged_wire_witness :
  gossip_of
    (neighbor_table
       (run (node_addr 2)
          [Broadcast 0 (node_addr 3)
             [{| nt_addr := node_addr 3; nt_trust := 1 |}];
           Broadcast 1 (node_addr 4)
             [{| nt_addr := node_addr 3; nt_trust := 1 |}]]
          init_node))
  = trust_record
      <$> neighbor_table
            (run (node_addr 2)
               [Broadcast 0 (node_addr 3)
                  [{| nt_addr := node_addr 3; nt_trust := 1 |}];
                Broadcast 1 (node_addr 4)
                  [{| nt_addr := node_addr 3; nt_trust := 1 |}]]
               init_node).
Proof.
  apply (X12_ranged_wire_keeps_vector_whole (node_addr 2)).
  repeat (constructor || simpl || lia).
Defined.

(** ** How far a merge moves a trust *)

(** X13: when a record for the address of a non-sink entry is merged and the
    sum of the two trusts fits an int, the new trust lies between the old
    trust and the received one, and its distance to the received trust is at
    most half the old distance, rounded up.  For a non-negative sum the trust
    stays what it was exactly when the received trust equals it or exceeds it
    by one: merging the same value again and again reaches it from above but
    stops one short of it from below. *)
Theorem X13_merge_moves_toward_record p e :
  addr e ≠ sink_addr → nt_addr p = addr e →
  INT_MIN ≤ trust e + nt_trust p ≤ INT_MAX →
  Z.min (trust e) (nt_trust p) ≤ trust (update_entry p e)
                               ≤ Z.max (trust e) (nt_trust p)
  ∧ 2 * Z.abs (trust (update_entry p e) - nt_trust p)
    ≤ Z.abs (trust e - nt_trust p) + 1
  ∧ (0 ≤ trust e + nt_trust p →
     (trust (update_entry p e) = trust e
      ↔ nt_trust p = trust e ∨ nt_trust p = trust e + 1)).
Proof.
  intros Hs Ha Hsum. rewrite update_entry_eq. simpl.
  unfold merged_trust. case_decide; [done|].
  case_decide as Hc.
  - destruct Hc as [_ Hne]. rewrite int_mean_trunc by done.
    pose proof (Z.quot_rem' (trust e + nt_trust p) 2) as Hq.
    pose proof (Z.rem_bound_abs (trust e + nt_trust p) 2 ltac:(lia)) as Hr.
    split; [lia|]. split; [lia|].
    intros Hpos.
    pose proof (Z.rem_nonneg (trust e + nt_trust p) 2 ltac:(lia) Hpos). lia.
  - assert (nt_trust p = trust e) as -> by (apply dec_stable; tauto).
    split; [lia|]. split; [lia|]. intros _. by split; [left|].
Qed.

Lemma X13_merge_moves_witness :
  trust (update_entry {| nt_addr := node_addr 3; nt_trust := 100 |}
           (entry (node_addr 3) 99 0)) = 99
  ↔ 100 = 99 ∨ 100 = 99 + 1.
Proof.
  apply (X13_merge_moves_toward_record
           {| nt_addr := node_addr 3; nt_trust := 100 |}
           (entry (node_addr 3) 99 0)).
  - discriminate.
  - reflexivity.
  - vm_compute. split; discriminate.
  - simpl. lia.
Defined.

(** ** One round of gossip between two nodes *)

Lemma broadcast_scan_accepted from tbl e :
  NoDup (addrs tbl) → e ∈ tbl → addr e = from → 50 ≤ trust e →
  broadcast_scan from tbl = Accepted.
Proof.
  unfold addrs. intros Hnd Hin Ha Ht.
  induction tbl as [|e0 tbl IH]; [by apply elem_of_nil in Hin|].
  csimpl in *. apply NoDup_cons in Hnd as [Hfresh Hnd].
  apply elem_of_cons in Hin as [->|Hin].
  - rewrite Ha, linkaddr_cmp_refl.
    by destruct (Z.ltb_spec (trust e0) 50); [lia|].
  - cmp_cases from (addr e0); [|by apply IH].
    exfalso. apply Hfresh. rewrite <- E, <- Ha.
    by apply list_elem_of_fmap_2.
Qed.

Lemma entry_for_None a tbl : a ∉ addrs tbl → entry_for a tbl = None.
Proof.
  unfold addrs. induction tbl as [|e tbl IH]; csimpl; [done|].
  rewrite not_elem_of_cons. intros [Hne Hnin].
  case_decide; [congruence|]. by apply IH.
Qed.

Lemma merged_unique_records a cur tbl :
  a ≠ sink_addr → NoDup (addrs tbl) →
  foldl (merged_trust a) cur (trust_record <$> tbl)
  = match entry_for a tbl with
    | Some x => merged_trust a cur (trust_record x)
    | None => cur
    end.
Proof.
  unfold addrs. intros Ha Hnd. revert cur.
  induction tbl as [|e tbl IH]; intros cur; csimpl in *; [done|].
  apply NoDup_cons in Hnd as [Hfresh Hnd].
  case_decide as He.
  - apply merged_other_records; [done|].
    apply Forall_fmap, Forall_forall. intros x Hx. simpl.
    intros Hxa. apply Hfresh. rewrite He, <- Hxa.
    by apply list_elem_of_fmap_2.
  - rewrite <- (IH Hnd). f_equal.
    unfold merged_trust. repeat case_decide; try done.
    simpl in *. tauto.
Qed.

(** X14: one round of gossip.  Let a node whose table has unique addresses,
    at most 16 entries and no trust 0 broadcast its snapshot, and let a
    receiver with unique addresses hold an entry with trust at least 50 for
    that node.  Then the receiver keeps its entries and changes trusts only:
    its sink entry becomes 100 (unless the sender's table is empty), every
    other entry whose address the sender also holds with a different trust
    gets the int mean of the two trusts, and every remaining entry keeps its
    trust. *)
Theorem X14_gossip_round now from tbl st e :
  NoDup (addrs tbl) → (length tbl ≤ MAX_NEIGHBORS)%nat →
  Forall (λ a, trust a ≠ 0) tbl →
  NoDup (addrs (neighbor_table st)) →
  e ∈ neighbor_table st → addr e = from → 50 ≤ trust e →
  neighbor_table (broadcast_recv now from (broadcast_snapshot tbl) st)
  = (λ b, set_trust b (gossiped_trust tbl b)) <$> neighbor_table st
  ∧ neighbor_mem (broadcast_recv now from (broadcast_snapshot tbl) st)
    = neighbor_mem st.
Proof.
  intros HndA Hlen Hnz HndB Hin Ha Ht.
  pose proof (broadcast_scan_accepted from _ e HndB Hin Ha Ht) as Hscan.
  rewrite broadcast_recv_table, broadcast_recv_mem, Hscan.
  split; [|done]. rewrite update_table_table.
  fold (gossip_of tbl). rewrite gossip_of_eq by done.
  rewrite meaningful_all by (by apply Forall_fmap).
  apply fmap_ext_all. intros b. f_equal. unfold gossiped_trust.
  case_decide as Hs.
  - rewrite merged_sink by done.
    destruct tbl as [|x tbl]; csimpl; repeat case_decide; done || congruence.
  - rewrite merged_unique_records by done.
    destruct (entry_for (addr b) tbl) as [a|] eqn:Hfind; [|done].
    assert (Haddr : addr a = addr b).
    { clear -Hfind. induction tbl as [|x tbl IH]; simpl in Hfind; [done|].
      case_decide; [by simplify_eq|by apply IH]. }
    unfold merged_trust. simpl. case_decide; [done|].
    repeat case_decide; try done; tauto.
Qed.

Lemma X14_gossip_round_witness :
  neighbor_table
    (broadcast_recv 7 (node_addr 2)
       (broadcast_snapshot
          [entry (node_addr 3) 20 0; entry sink_addr 99 0;
           entry (node_addr 5) 80 0])
       (with_table
          [entry (node_addr 2) 100 0; entry (node_addr 3) 60 0;
           entry sink_addr 100 0; entry (node_addr 4) 70 0]))
  = (λ b, set_trust b
            (gossiped_trust
               [entry (node_addr 3) 20 0; entry sink_addr 99 0;
                entry (node_addr 5) 80 0] b))
      <$> [entry (node_addr 2) 100 0; entry (node_addr 3) 60 0;
           entry sink_addr 100 0; entry (node_addr 4) 70 0].
Proof.
  apply (X14_gossip_round 7 (node_addr 2)
           [entry (node_addr 3) 20 0; entry sink_addr 99 0;
            entry (node_addr 5) 80 0]
           (with_table
              [entry (node_addr 2) 100 0; entry (node_addr 3) 60 0;
               entry sink_addr 100 0; entry (node_addr 4) 70 0])
           (entry (node_addr 2) 100 0)).
  - apply (bool_decide_unpack _). vm_compute. exact I.
  - vm_compute. lia.
  - repeat constructor; discriminate.
  - apply (bool_decide_unpack _). vm_compute. exact I.
  - apply (bool_decide_unpack _). vm_compute. exact I.
  - reflexivity.
  - simpl. lia.
Defined.

(** ** A blocked neighbour's entry *)

Lemma blocked_entry tbl k e :
  tbl !! k = Some e → trust e < 50 → addr_is_blocked (addr e) tbl = true.
Proof.
  intros Hk Ht. apply addr_is_blocked_true. exists e.
  split; [by eapply list_elem_of_lookup_2|]. by split.
Qed.

(** X15: the entry of a blocked neighbour other than the node itself is
    frozen: no event changes its address, its timer or its last_received
    stamp, and no event other than a broadcast changes it at all. Unicast
    and forward events from it are dropped before they rearm its timer, and
    its own expiry only logs. *)
Theorem X15_blocked_entry_is_frozen self st ev k e :
  neighbor_table st !! k = Some e → trust e < 50 → addr e ≠ self →
  ∃ e',
    neighbor_table (handle self st ev) !! k = Some e'
    ∧ addr e' = addr e ∧ ctimer e' = ctimer e
    ∧ last_received e' = last_received e
    ∧ (is_broadcast ev = false → e' = e).
Proof.
  intros Hk Ht Hself.
  pose proof (blocked_entry _ _ _ Hk Ht) as Hb.
  destruct ev as [now from payload|now s p h|now rand o d p h|now i]; simpl.
  - pose proof (broadcast_recv_keeps_stamps now from payload st) as H5.
    destruct (Forall2_lookup_l _ _ _ _ _ H5 Hk) as (e' & Hk' & Ha & Hc & Hl).
    exists e'. apply lookup_take_Some in Hk' as [Hk' _]. by repeat split.
  - exists e. rewrite recv_table.
    destruct (addr_is_blocked s (neighbor_table st)) eqn:Hs; [by repeat split|].
    rewrite recv_loop_fmap, list_lookup_fmap, Hk. simpl.
    cmp_cases s (addr e); [congruence|]. by repeat split.
  - exists e. rewrite forward_table.
    destruct (negb (linkaddr_cmp p self)
              && addr_is_blocked p (neighbor_table st)) eqn:Hgate;
      [by repeat split|].
    rewrite forward_loop_fmap, list_lookup_fmap, Hk. simpl.
    cmp_cases p (addr e); [|by repeat split].
    exfalso. subst p. rewrite Hb, andb_true_r in Hgate.
    apply negb_false_iff, linkaddr_cmp_true in Hgate. done.
  - exists e. rewrite remove_neighbor_table.
    destruct (neighbor_table st !! i) as [n|] eqn:Hi; [|by repeat split].
    destruct (negb (linkaddr_cmp sink_addr (addr n)) && (MAT <=? trust n))
      eqn:Hcond; [|by repeat split].
    destruct (decide (i = k)) as [->|Hne].
    + exfalso. assert (n = e) as -> by congruence.
      apply andb_true_iff in Hcond as [_ Hge].
      apply Z.leb_le in Hge. unfold MAT in Hge. lia.
    + rewrite list_lookup_insert_ne by done. by repeat split.
Qed.

Lemma X15_blocked_entry_witness :
  ∃ e',
    neighbor_table
      (handle (node_addr 2) blocked_5
         (Forward 3 0 (node_addr 5) sink_addr (node_addr 5) 1)) !! 0%nat
    = Some e'
    ∧ addr e' = node_addr 5 ∧ ctimer e' = 10 ∧ last_received e' = 0
    ∧ (is_broadcast (Forward 3 0 (node_addr 5) sink_addr (node_addr 5) 1)
       = false → e' = entry (node_addr 5) 49 0).
Proof.
  apply (X15_blocked_entry_is_frozen (node_addr 2) blocked_5
           (Forward 3 0 (node_addr 5) sink_addr (node_addr 5) 1) 0%nat
           (entry (node_addr 5) 49 0)).
  - reflexivity.
  - simpl. lia.
  - discriminate.
Defined.
